(** * omero-cli-transfer: the [transfer] plugin (src/omero/plugins/transfer.py)

    A shallow embedding of [TransferControl] and the properties of its
    identity reconciliation, packet extraction, import loop and path
    handling.  Python values are modelled as follows:

    - [str] is [string]; [int] is [Z];
    - a [dict] is an insertion-ordered association list (iteration order
      matters for [_make_image_map]);
    - an exception is the [Raise] branch of [result];
    - calls that leave the process ([cli.invoke], the query service,
      [populate_xml], the filesystem) are recorded in a trace or answered
      by a state-passing oracle.  In [_copy_files], [_import_files],
      [__pack] and [__unpack] only [cli.invoke] is given the choice between
      coming back and raising; the filesystem calls, the query service and
      the collaborators [populate_xml], [from_xml] and [populate_omero] are
      taken to come back.  [_copy_files_raising], [_import_files_raising],
      [__pack_raising] and [__unpack_raising] are the same functions with
      each of these calls free to raise;
    - [Annotation] has its namespace and value as strings; [AnyAnnotation]
      lets them be [None]. *)

From Stdlib Require Import ZArith Lia Ascii.
From stdpp Require Import base list strings pretty sorting.

Set Warnings "-clear-no-such-hyp".

Open Scope Z_scope.

(** ** Python built-ins *)

Module Py.

(** Exceptions the modelled code can raise. *)
Inductive exn : Type :=
| IndexError            (* list index out of range *)
| ValueError            (* int() on a non-number, split on an empty separator *)
| AttributeError        (* an attribute looked up on None *)
| External (msg : string). (* raised inside an external collaborator *)

Inductive result (A : Type) : Type :=
| Ok (a : A)
| Raise (e : exn).
Arguments Ok {A} a.
Arguments Raise {A} e.

Definition bind {A B} (r : result A) (k : A → result B) : result B :=
  match r with
  | Ok a => k a
  | Raise e => Raise e
  end.

(** [for x in xs: acc = body(acc, x)], stopping at the first exception. *)
Fixpoint for_each {A X} (xs : list X) (body : A → X → result A) (acc : A)
  : result A :=
  match xs with
  | [] => Ok acc
  | x :: xs' => bind (body acc x) (for_each xs' body)
  end.

(** [s.startswith(p)], returning what follows [p]. *)
Fixpoint strip_prefix (p s : string) : option string :=
  match p with
  | EmptyString => Some s
  | String a p' =>
      match s with
      | EmptyString => None
      | String b s' => if decide (a = b) then strip_prefix p' s' else None
      end
  end.

Definition startswith (s p : string) : bool :=
  match strip_prefix p s with
  | Some _ => true
  | None => false
  end.

(** [s.partition(sep)] at the first occurrence of [sep]:
    [Some (before, after)], or [None] when [sep] does not occur. *)
Fixpoint find (sep s : string) : option (string * string) :=
  match strip_prefix sep s with
  | Some after => Some (EmptyString, after)
  | None =>
      match s with
      | EmptyString => None
      | String c s' =>
          match find sep s' with
          | Some (before, after) => Some (String c before, after)
          | None => None
          end
      end
  end.

(** [sep in s] *)
Definition occurs (sep s : string) : Prop := ∃ a b, s = a +:+ sep +:+ b.

(** [s.split(sep)] for a non-empty [sep]: scan left to right, cut at each
    occurrence found, and resume the scan after it.  Every cut consumes at
    least one character, so [String.length s] rounds are enough. *)
Fixpoint split_fuel (fuel : nat) (sep s : string) : list string :=
  match fuel, find sep s with
  | S fuel', Some (before, after) => before :: split_fuel fuel' sep after
  | _, _ => [s]
  end.

Definition split (sep s : string) : list string :=
  split_fuel (String.length s) sep s.

(** [l[-1]] on a list of strings ([split] never returns an empty list). *)
Definition last_item (l : list string) : string := default EmptyString (last l).

(** [s[1:]] *)
Definition tail (s : string) : string :=
  match s with
  | EmptyString => EmptyString
  | String _ s' => s'
  end.

(** [s.lstrip('/')], [s.rstrip('/')] and [s.strip('/')]. *)
Fixpoint lstrip_slash (s : string) : string :=
  match s with
  | String c s' => if decide (c = "/"%char) then lstrip_slash s' else s
  | EmptyString => s
  end.

Fixpoint rstrip_slash (s : string) : string :=
  match s with
  | EmptyString => EmptyString
  | String c s' =>
      match rstrip_slash s' with
      | EmptyString => if decide (c = "/"%char) then EmptyString else String c EmptyString
      | r => String c r
      end
  end.

Definition strip_slash (s : string) : string := rstrip_slash (lstrip_slash s).

(** [str(n)] for an integer. *)
Definition str_of_int (n : Z) : string := pretty n.

(** [sorted(l)] on integers. *)
Definition sorted (l : list Z) : list Z := merge_sort Z.le l.

(** *** dict: insertion-ordered, unique keys *)

Definition dict (V : Type) : Type := list (string * V).

(** [d.get(k)] *)
Fixpoint get {V} (k : string) (d : dict V) : option V :=
  match d with
  | [] => None
  | (k', v) :: d' => if decide (k' = k) then Some v else get k d'
  end.

(** [d[k] = v]: replace in place, or append a new key at the end. *)
Fixpoint set {V} (k : string) (v : V) (d : dict V) : dict V :=
  match d with
  | [] => [(k, v)]
  | (k', v') :: d' =>
      if decide (k' = k) then (k, v) :: d' else (k', v') :: set k v d'
  end.

(** [d[k]] on a [defaultdict(list)]: a missing key reads as the empty
    list (the entry Python adds for it holds nothing). *)
Definition getitem_default {V} (k : string) (d : dict (list V)) : list V :=
  default [] (get k d).

(** [d[k].extend(v)] on a [defaultdict(list)]. *)
Definition extend {V} (k : string) (v : list V) (d : dict (list V))
  : dict (list V) :=
  set k (getitem_default k d ++ v) d.

(** [d[k].append(x)] on a [defaultdict(list)]. *)
Definition append {V} (k : string) (x : V) (d : dict (list V))
  : dict (list V) :=
  extend k [x] d.

(** [list(set(l))]: Python fixes neither the order of a set nor the order
    of the list made from it; what it guarantees is [set_list_spec]. *)
Definition set_list_spec (list_of_set : list string → list string) : Prop :=
  ∀ l, NoDup (list_of_set l) ∧ ∀ x, x ∈ list_of_set l ↔ x ∈ l.

End Py.

Import Py.

(** ** [pathlib.PurePosixPath] and [os.path] (POSIX flavour) *)

Module PosixPath.

(** A parsed path: its root (the empty string, [/] or [//]) and its
    components; empty components and [.] are dropped when parsing. *)
Record path : Type := { root : string; parts : list string }.

Definition parse_root (s : string) : string :=
  if startswith s "///" then "/"
  else if startswith s "//" then "//"
  else if startswith s "/" then "/"
  else "".

Definition keep_part (c : string) : bool :=
  negb (bool_decide (c = "")) && negb (bool_decide (c = ".")).

(** [Path(s)] *)
Definition parse (s : string) : path :=
  {| root := parse_root s; parts := List.filter keep_part (split "/" s) |}.

(** ["/".join(l)] *)
Fixpoint join_parts (l : list string) : string :=
  match l with
  | [] => ""
  | [c] => c
  | c :: l' => c +:+ "/" +:+ join_parts l'
  end.

(** [str(p)] *)
Definition str (p : path) : string :=
  match root p, parts p with
  | EmptyString, [] => "."
  | r, l => r +:+ join_parts l
  end.

(** [p.parent] *)
Definition parent (p : path) : path :=
  {| root := root p; parts := removelast (parts p) |}.

(** [p / s]: a rooted right operand replaces the left one. *)
Definition truediv (p : path) (s : string) : path :=
  let q := parse s in
  match root q with
  | EmptyString => {| root := root p; parts := parts p ++ parts q |}
  | _ => q
  end.

(** [s.rfind(c)] for a single character, [-1] when absent. *)
Fixpoint rfind (c : ascii) (s : string) : Z :=
  match s with
  | EmptyString => -1
  | String a s' =>
      let r := rfind c s' in
      if 0 <=? r then r + 1 else if decide (a = c) then 0 else -1
  end.

(** [all(ch == '.' for ch in s)] *)
Fixpoint all_dots (s : string) : bool :=
  match s with
  | EmptyString => true
  | String a s' => bool_decide (a = "."%char) && all_dots s'
  end.

(** [os.path.splitext(p)]: cut at the last dot of the last component,
    unless that component consists of leading dots up to it. *)
Definition splitext (p : string) : string * string :=
  let sepIndex := rfind "/" p in
  let dotIndex := rfind "." p in
  if sepIndex <? dotIndex then
    let filenameIndex := Z.to_nat (sepIndex + 1) in
    let dot := Z.to_nat dotIndex in
    if all_dots (String.substring filenameIndex (dot - filenameIndex) p)
    then (p, "")
    else (String.substring 0 dot p,
          String.substring dot (String.length p - dot) p)
  else (p, "").

(** [s.endswith('/')] *)
Fixpoint endswith_slash (s : string) : bool :=
  match s with
  | EmptyString => false
  | String a EmptyString => bool_decide (a = "/"%char)
  | String _ s' => endswith_slash s'
  end.

(** One round of the loop of [os.path.join]. *)
Definition join_step (path b : string) : string :=
  if startswith b "/" then b
  else if bool_decide (path = "") || endswith_slash path then path +:+ b
  else path +:+ "/" +:+ b.

(** [os.path.join(a, *p)] *)
Definition join (a : string) (p : list string) : string :=
  foldl join_step a p.

End PosixPath.

Import PosixPath.

(** ** The transfer document and the objects of the OMERO model *)

(** An entry of [ome.structured_annotations]. *)
Record Annotation : Type :=
  { ann_id : string; ann_namespace : string; ann_value : string }.

(** An entry of [image.annotation_ref]. *)
Record AnnotationRef : Type := { ref_id : string }.

Record ImageRecord : Type :=
  { image_id : string; annotation_ref : list AnnotationRef }.

Record OME : Type :=
  { images : list ImageRecord; structured_annotations : list Annotation }.

(** The object [ProxyStringType] hands to [pack]: any class of
    [omero.model], of which three are accepted. *)
Inductive model_object : Type :=
| Image (id : Z)
| Dataset (id : Z)
| Project (id : Z)
| OtherObject (class_name : string) (id : Z).

(** An entry of [sharedResources().repositories()]: the description's path
    and name, and whether the proxy casts to a managed repository. *)
Record Repository : Type :=
  { desc_path : string; desc_name : string; is_mrepo : bool }.

(** What a call of [cli.invoke(argv)] can do: come back, with the return
    code the command left in [cli.rv], or let an exception through. *)
Inductive invoke_outcome : Type :=
| Returned (rv : Z)
| Raised (e : exn).

(** Effects of [pack] and [unpack] outside the process, in program order. *)
Inductive effect : Type :=
| Print (msg : string)
| MakeDirs (path : string)
| PopulateXml (datatype : string) (id : Z) (xml_fp : string) (repo : string)
| Invoke (argv : list string)
| MakeArchive (base_name : string) (root_dir : string)
| RmTree (path : string)
| UnpackArchive (filename : string) (extract_dir : string)
| PopulateOmero (ome : OME) (img_map : dict Z).

(** ** [TransferControl] *)

(** The join key of a file path: [k.split("/./")[-1]]. *)
Definition normalize (k : string) : string := last_item (split "/./" k).

(** The loops at lines 268-270 and 272-274 of [_make_image_map]:
    [for k, v in m.items(): d[k.split("/./")[-1]].extend(v)]. *)
Definition merge_by_suffix (m : dict (list Z)) : dict (list Z) :=
  foldl (λ d kv, extend (normalize kv.1) kv.2 d) [] m.

(** [f"Image:{n}"] *)
Definition map_key (n : Z) : string := "Image:" +:+ str_of_int n.

(** Lines 281-282: one round of [for count in range(len(src_v))]. *)
Definition pair_at (src_v dest_v : list Z) (imgmap : dict Z) (count : nat)
  : result (dict Z) :=
  match src_v !! count, dest_v !! count with
  | Some s, Some d => Ok (set (map_key s) d imgmap)
  | _, _ => Raise IndexError
  end.

(** Lines 280-282: the inner loop for one join key. *)
Definition pair_lists (src_v dest_v : list Z) (imgmap : dict Z)
  : result (dict Z) :=
  for_each (seq 0 (length src_v)) (pair_at src_v dest_v) imgmap.

(** [_make_image_map(source_map, dest_map)]; its four debugging [print]s
    are left out. *)
Definition _make_image_map (source_map dest_map : dict (list Z))
  : result (dict Z) :=
  let src_dict := merge_by_suffix source_map in
  let dest_dict := merge_by_suffix dest_map in
  for_each src_dict
    (λ imgmap kv, pair_lists kv.2 (getitem_default kv.1 dest_dict) imgmap)
    [].

(** [_get_path_to_repo()] over the repositories the server lists. *)
Definition _get_path_to_repo (repos : list Repository) : list string :=
  foldl (λ mrepos r,
           if is_mrepo r then mrepos ++ [desc_path r +:+ desc_name r]
           else mrepos)
        [] repos.

Section Runtime.

(** [int(s)]: [None] stands for [ValueError]. *)
Variable int : string → option Z.

(** [list(set(l))]. *)
Variable list_of_set : list string → list string.

(** The destination server, as far as [unpack] reaches it: [cli.invoke]
    changes it and reports an outcome, the query service lists the image
    ids recorded for a client path. *)
Variable Server : Type.
Variable invoke : list string → Server → invoke_outcome * Server.
Variable projection : string → Server → list Z.

(** [int(s.split(":")[-1])] *)
Definition trailing_int (s : string) : result Z :=
  match int (last_item (split ":" s)) with
  | Some n => Ok n
  | None => Raise ValueError
  end.

(** Lines 207-210: one round of the loop over the annotations. *)
Definition scan_annotation (acc : dict (list Z) * list string)
    (ann : Annotation) : result (dict (list Z) * list string) :=
  bind (trailing_int (ann_id ann)) (λ n,
    if n <? 0 then
      bind (trailing_int (ann_namespace ann)) (λ src_id,
        Ok (append (ann_value ann) src_id acc.1,
            acc.2 ++ [normalize (ann_value ann)]))
    else Ok acc).

(** [[x for x in l if int(x.id.split(":")[-1]) > 0]] *)
Fixpoint keep_positive {A} (ident : A → string) (l : list A)
  : result (list A) :=
  match l with
  | [] => Ok []
  | x :: l' =>
      bind (trailing_int (ident x)) (λ n,
        bind (keep_positive ident l') (λ rest,
          Ok (if 0 <? n then x :: rest else rest)))
  end.

(** Lines 212-213: the loop over the images. *)
Fixpoint strip_refs (imgs : list ImageRecord) : result (list ImageRecord) :=
  match imgs with
  | [] => Ok []
  | i :: imgs' =>
      bind (keep_positive ref_id (annotation_ref i)) (λ refs,
        bind (strip_refs imgs') (λ rest,
          Ok ({| image_id := image_id i; annotation_ref := refs |} :: rest)))
  end.

(** [_create_image_map(ome)]: the document as the call leaves it, the
    source path map and the file list. *)
Definition _create_image_map (ome : OME)
  : result (OME * dict (list Z) * list string) :=
  bind (for_each (structured_annotations ome) scan_annotation ([], []))
    (λ '(img_map, filelist),
      bind (keep_positive ann_id (structured_annotations ome)) (λ anns,
        bind (strip_refs (images ome)) (λ imgs,
          Ok ({| images := imgs; structured_annotations := anns |},
              (λ kv : string * list Z, (kv.1, sorted kv.2)) <$> img_map,
              list_of_set filelist)))).

(** [_get_image_ids(file_path)] *)
Definition _get_image_ids (file_path : string) (srv : Server) : list Z :=
  sorted (projection (strip_slash file_path) srv).

(** The command line [_import_files] builds for one file. *)
Definition import_argv (dest_path : string) (ln_s : bool) : list string :=
  if ln_s then ["import"; dest_path; "--transfer=ln_s"]
  else ["import"; dest_path].

(** Lines 222-232: the loop of [_import_files], with the invocations it
    makes.  The value [cli.invoke] returns is dropped, as in the source. *)
Fixpoint import_loop (folder : string) (ln_s : bool) (filelist : list string)
    (dest_map : dict (list Z)) (srv : Server)
  : result (dict (list Z)) * Server * list effect :=
  match filelist with
  | [] => (Ok dest_map, srv, [])
  | filepath :: rest =>
      let dest_path := join folder ["."; filepath] in
      let argv := import_argv dest_path ln_s in
      match invoke argv srv with
      | (Raised e, srv') => (Raise e, srv', [Invoke argv])
      | (Returned _, srv') =>
          let img_ids := _get_image_ids dest_path srv' in
          let '(r, srv'', tr) :=
            import_loop folder ln_s rest (set dest_path img_ids dest_map) srv'
          in (r, srv'', Invoke argv :: tr)
      end
  end.

(** [_import_files(folder, filelist, ln_s)] *)
Definition _import_files (folder : path) (filelist : list string)
    (ln_s : bool) (srv : Server)
  : result (dict (list Z)) * Server * list effect :=
  import_loop (str folder) ln_s filelist [] srv.

(** Lines 181-186 of [__unpack]: where the archive is extracted.  An
    [--output] that is absent or empty is falsy. *)
Definition unpack_folder (filepath : string) (output : option string) : path :=
  let parent_folder := parent (parse filepath) in
  let filename := (splitext filepath).1 in
  match output with
  | Some (String c dir) => parse (String c dir)
  | _ => truediv parent_folder filename
  end.

(** External collaborators of [pack] and [unpack]. *)
Variable repositories : Server → list Repository.
Variable populate_xml : string → Z → string → string → Server → dict string.
Variable from_xml : string → OME.

(** Lines 143-148: one round of the loop of [_copy_files]. *)
Definition copy_file (folder repo : string) (id path : string)
    (srv : Server) : result () * Server * list effect :=
  match repo with
  | EmptyString => (Raise ValueError, srv, [])
  | _ =>
      let rel_path := tail (last_item (split repo path)) in
      let rel_path := str (parent (parse rel_path)) in
      let subfolder := str (truediv (parse folder) rel_path) in
      let argv := ["download"; id; subfolder] in
      match invoke argv srv with
      | (Raised e, srv') => (Raise e, srv', [MakeDirs subfolder; Invoke argv])
      | (Returned _, srv') => (Ok (), srv', [MakeDirs subfolder; Invoke argv])
      end
  end.

(** [_copy_files(id_list, folder, repo)] *)
Fixpoint _copy_files (id_list : dict string) (folder repo : string)
    (srv : Server) : result () * Server * list effect :=
  match id_list with
  | [] => (Ok (), srv, [])
  | (id, path) :: id_list' =>
      match copy_file folder repo id path srv with
      | (Raise e, srv', tr) => (Raise e, srv', tr)
      | (Ok _, srv', tr) =>
          let '(r, srv'', tr') := _copy_files id_list' folder repo srv' in
          (r, srv'', tr ++ tr')
      end
  end.

(** Lines 152-160 of [__pack]: the accepted kinds of root object. *)
Definition src_datatype_and_id (object : model_object) : option (string * Z) :=
  match object with
  | Image id => Some ("Image", id)
  | Dataset id => Some ("Dataset", id)
  | Project id => Some ("Project", id)
  | OtherObject _ _ => None
  end.

(** [__pack(args)] on [args.object] and [args.filepath].  Both [return]
    statements of the source give [None]: the result is [Ok ()] on the
    rejecting branch as well as after a complete run. *)
Definition __pack (object : model_object) (filepath : string) (srv : Server)
  : result () * Server * list effect :=
  match src_datatype_and_id object with
  | None => (Ok (), srv, [Print "Object is not a project, dataset or image"])
  | Some (src_datatype, src_dataid) =>
      let zip_path := parse filepath in
      let folder := str zip_path +:+ "_folder" in
      let xml_fp := str (truediv (parse folder) "transfer.xml") in
      let tr1 := [Print "Populating xml..."; MakeDirs folder] in
      match _get_path_to_repo (repositories srv) with
      | [] => (Raise IndexError, srv, tr1)
      | repo :: _ =>
          let path_id_dict :=
            populate_xml src_datatype src_dataid xml_fp repo srv in
          let tr2 :=
            tr1 ++ [PopulateXml src_datatype src_dataid xml_fp repo;
                    Print ("XML saved at " +:+ xml_fp +:+ ".");
                    Print "Starting file copy..."] in
          match _copy_files path_id_dict folder repo srv with
          | (Raise e, srv', tr) => (Raise e, srv', tr2 ++ tr)
          | (Ok _, srv', tr) =>
              (Ok (), srv',
               tr2 ++ tr ++
               [Print "Creating zip file...";
                MakeArchive (splitext (str zip_path)).1 folder;
                Print "Cleaning up...";
                RmTree folder])
          end
      end
  end.

(** [__unpack(args)] on [args.filepath], [args.output] and
    [args.ln_s_import]. *)
Definition __unpack (filepath : string) (output : option string)
    (ln_s_import : bool) (srv : Server)
  : result () * Server * list effect :=
  let folder := unpack_folder filepath output in
  let ome := from_xml (str (truediv folder "transfer.xml")) in
  let tr1 :=
    [Print ("Unzipping " +:+ filepath +:+ "...");
     UnpackArchive filepath (str folder);
     Print "Generating Image mapping and import filelist..."] in
  match _create_image_map ome with
  | Raise e => (Raise e, srv, tr1)
  | Ok (ome', src_img_map, filelist) =>
      let tr2 := tr1 ++ [Print "Importing data as orphans..."] in
      match _import_files folder filelist ln_s_import srv with
      | (Raise e, srv', tr) => (Raise e, srv', tr2 ++ tr)
      | (Ok dest_img_map, srv', tr) =>
          let tr3 :=
            tr2 ++ tr ++ [Print "Matching source and destination images..."] in
          match _make_image_map src_img_map dest_img_map with
          | Raise e => (Raise e, srv', tr3)
          | Ok img_map =>
              (Ok (), srv',
               tr3 ++ [Print "Creating and linking OMERO objects...";
                       PopulateOmero ome' img_map])
          end
      end
  end.

End Runtime.

Arguments _get_image_ids {Server} projection file_path srv.
Arguments import_loop {Server} invoke projection folder ln_s filelist dest_map srv.
Arguments _import_files {Server} invoke projection folder filelist ln_s srv.
Arguments copy_file {Server} invoke folder repo id path srv.
Arguments _copy_files {Server} invoke id_list folder repo srv.
Arguments __pack {Server} invoke repositories populate_xml object filepath srv.
Arguments __unpack int list_of_set {Server} invoke projection from_xml
  filepath output ln_s_import srv.

(** ** A concrete runtime for running the model

    [py_int] reads the plain form of an integer literal: an optional sign
    followed by decimal digits.  [dedup] lists a set in order of first
    occurrence, one of the orders [list(set(l))] may produce. *)

Definition digit_value (c : ascii) : option Z :=
  let n := Z.of_N (N_of_ascii c) in
  if (48 <=? n) && (n <=? 57) then Some (n - 48) else None.

Fixpoint digits_value (acc : Z) (s : string) : option Z :=
  match s with
  | EmptyString => Some acc
  | String c s' =>
      match digit_value c with
      | Some d => digits_value (10 * acc + d) s'
      | None => None
      end
  end.

Definition py_int (s : string) : option Z :=
  match s with
  | EmptyString => None
  | String c s' =>
      if decide (c = "-"%char) then
        match s' with
        | EmptyString => None
        | _ => Z.opp <$> digits_value 0 s'
        end
      else if decide (c = "+"%char) then
        match s' with
        | EmptyString => None
        | _ => digits_value 0 s'
        end
      else digits_value 0 s
  end.

Definition dedup (l : list string) : list string := remove_dups l.

(** A server for examples: its state is the list of command lines run so
    far; an import of a path in [raising] lets an exception through, one of
    a path in [failing] comes back with return code 1; every imported path
    has the image ids [ids_of] gives it. *)
Section ExampleServer.

Variable raising failing : list string.
Variable ids_of : string → list Z.

Definition example_invoke (argv : list string) (srv : list (list string))
  : invoke_outcome * list (list string) :=
  let target := default "" (argv !! 1%nat) in
  if bool_decide (target ∈ raising)
  then (Raised (External "import"), srv ++ [argv])
  else if bool_decide (target ∈ failing)
  then (Returned 1, srv ++ [argv])
  else (Returned 0, srv ++ [argv]).

Definition example_projection (cpath : string) (srv : list (list string))
  : list Z := ids_of cpath.

End ExampleServer.

(** A document with one image backed by [a/img.tif]: two sentinels for that
    file, one real annotation, and an image referring to a sentinel and to
    the real annotation. *)
Definition example_document : OME :=
  {| images :=
       [{| image_id := "Image:501";
           annotation_ref := [{| ref_id := "Annotation:-1" |};
                              {| ref_id := "Annotation:7" |}] |}];
     structured_annotations :=
       [{| ann_id := "Annotation:-1"; ann_namespace := "Image:501";
           ann_value := "/repo/./a/img.tif" |};
        {| ann_id := "Annotation:-2"; ann_namespace := "Image:500";
           ann_value := "/repo/./a/img.tif" |};
        {| ann_id := "Annotation:7"; ann_namespace := "ns";
           ann_value := "tag" |}] |}.

(** A document whose only annotation has an identifier that does not end
    in an integer. *)
Definition unreadable_document : OME :=
  {| images := [];
     structured_annotations :=
       [{| ann_id := "Annotation:one"; ann_namespace := ""; ann_value := "" |}] |}.

(** ** Vocabulary of the statements below *)

(** The assignments [imgmap["Image:<s>"] = d], for the pairs [(s, d)] of a
    list taken in order. *)
Definition insert_pairs (imgmap : dict Z) (pairs : list (Z * Z)) : dict Z :=
  foldl (λ m sd, set (map_key sd.1) sd.2 m) imgmap pairs.

(** The pairs reconciliation goes through: for each join key of
    [src_dict], in dict order, its identifiers against those [dest_dict]
    has under the same key, position by position. *)
Definition pairing (src_dict dest_dict : dict (list Z)) : list (Z * Z) :=
  kv ← src_dict; zip kv.2 (getitem_default kv.1 dest_dict).

(** The identifier lists of the raw keys of [m] whose join key is [j],
    one after the other in the iteration order of [m]. *)
Definition ids_under (j : string) (m : dict (list Z)) : list Z :=
  kv ← m; if decide (normalize kv.1 = j) then kv.2 else [].

(** Sentinel and real entries, by the integer their identifier ends in. *)
Definition is_sentinel (int : string → option Z) (ident : string) : Prop :=
  match int (last_item (split ":" ident)) with
  | Some n => n < 0
  | None => False
  end.

Definition is_real (int : string → option Z) (ident : string) : Prop :=
  match int (last_item (split ":" ident)) with
  | Some n => 0 < n
  | None => False
  end.

#[global] Instance is_sentinel_dec int ident : Decision (is_sentinel int ident).
Proof.
  unfold is_sentinel. destruct (int _); [apply Z.lt_dec | right; tauto].
Defined.

#[global] Instance is_real_dec int ident : Decision (is_real int ident).
Proof.
  unfold is_real. destruct (int _); [apply Z.lt_dec | right; tauto].
Defined.

(** [int] accepts the end of the identifier. *)
Definition parses (int : string → option Z) (ident : string) : Prop :=
  is_Some (int (last_item (split ":" ident))).

(** A document [_create_image_map] reads without a [ValueError]: every
    annotation and every annotation reference has an identifier ending in
    an integer, and so has the namespace of every sentinel. *)
Definition readable (int : string → option Z) (ome : OME) : Prop :=
  Forall (λ a, parses int (ann_id a) ∧
               (is_sentinel int (ann_id a) → parses int (ann_namespace a)))
         (structured_annotations ome) ∧
  Forall (λ i, Forall (λ r, parses int (ref_id r)) (annotation_ref i))
         (images ome).

#[global] Instance readable_dec int ome : Decision (readable int ome).
Proof. unfold readable, parses. apply _. Defined.

(** An image record that keeps its references to real annotations only. *)
Definition without_sentinel_refs (int : string → option Z) (i : ImageRecord)
  : ImageRecord :=
  {| image_id := image_id i;
     annotation_ref := filter (λ r, is_real int (ref_id r)) (annotation_ref i) |}.

(** The files named by the sentinels of a document, one entry for each
    sentinel, in document order. *)
Definition sentinel_files (int : string → option Z) (ome : OME) : list string :=
  (λ a, normalize (ann_value a)) <$>
    filter (λ a, is_sentinel int (ann_id a)) (structured_annotations ome).

(** The root objects [pack] accepts. *)
Definition supported (object : model_object) : Prop :=
  match object with
  | Image _ | Dataset _ | Project _ => True
  | OtherObject _ _ => False
  end.

(** The effects that touch the filesystem or a server; [print] does not. *)
Definition is_io (e : effect) : Prop :=
  match e with
  | Print _ => False
  | _ => True
  end.

(** The command line of the import of one file of the list. *)
Definition import_of (folder : path) (ln_s : bool) (filepath : string) : effect :=
  Invoke (import_argv (join (str folder) ["."; filepath]) ln_s).

(** The source image a sentinel stands for: the integer its namespace
    ends in. *)
Definition source_id (int : string → option Z) (a : Annotation) : Z :=
  default 0 (int (last_item (split ":" (ann_namespace a)))).

(** The source images of the sentinels whose value is [v], in document
    order. *)
Definition sentinel_ids (int : string → option Z) (v : string)
    (anns : list Annotation) : list Z :=
  source_id int <$>
    filter (λ a, is_sentinel int (ann_id a) ∧ ann_value a = v) anns.

(** A component as [Path] keeps them: not empty, not [.], without [/]. *)
Definition good_part (c : string) : Prop :=
  c ≠ "" ∧ c ≠ "." ∧ ¬ occurs "/" c.

(** The paths [Path(s)], [p.parent] and [p / s] can produce. *)
Definition wf_path (p : path) : Prop :=
  (root p = "" ∨ root p = "/" ∨ root p = "//") ∧ Forall good_part (parts p).

(** [/c1/c2/.../cn/.]: what follows the first component of a relative path
    once [/.] is put after it. *)
Fixpoint dotted_tail (l : list string) : string :=
  match l with
  | [] => "/."
  | c :: l' => "/" +:+ c +:+ dotted_tail l'
  end.

(** Lines 144-146 of [_copy_files]: the directory a file is downloaded
    into. *)
Definition copy_target (folder repo path : string) : string :=
  str (truediv (parse folder)
         (str (parent (parse (tail (last_item (split repo path))))))).

(** The two effects of one round of [_copy_files]. *)
Definition copy_steps (folder repo : string) (entry : string * string)
  : list effect :=
  [MakeDirs (copy_target folder repo entry.2);
   Invoke ["download"; entry.1; copy_target folder repo entry.2]].

(** [all(ch == '/' for ch in s)] *)
Fixpoint all_slashes (s : string) : bool :=
  match s with
  | EmptyString => true
  | String c s' => bool_decide (c = "/"%char) && all_slashes s'
  end.

(** ** Annotations whose fields may be missing

    In the OME schema the namespace of an annotation is optional, and
    [ann.value] is there for some kinds of annotation only.  [None] is
    Python's [None]: [.split] on it raises [AttributeError].  [Annotation]
    above is the case in which both fields are strings. *)

Record AnyAnnotation : Type :=
  { any_id : string; any_namespace : option string; any_value : option string }.

Record AnyOME : Type :=
  { any_images : list ImageRecord; any_annotations : list AnyAnnotation }.

(** Lines 207-210: one round of the loop over the annotations.  Line 209
    looks up [img_map[ann.value]], which [None] as a key allows, then
    evaluates [int(ann.namespace.split(":")[-1])]; line 210 splits
    [ann.value]. *)
Definition scan_any_annotation (int : string → option Z)
    (acc : dict (list Z) * list string) (ann : AnyAnnotation)
  : result (dict (list Z) * list string) :=
  bind (trailing_int int (any_id ann)) (λ n,
    if n <? 0 then
      match any_namespace ann with
      | None => Raise AttributeError
      | Some namespace =>
          bind (trailing_int int namespace) (λ src_id,
            match any_value ann with
            | None => Raise AttributeError
            | Some value =>
                Ok (append value src_id acc.1, acc.2 ++ [normalize value])
            end)
      end
    else Ok acc).

(** [_create_image_map(ome)] on such a document. *)
Definition _create_image_map_any (int : string → option Z)
    (list_of_set : list string → list string) (ome : AnyOME)
  : result (AnyOME * dict (list Z) * list string) :=
  bind (for_each (any_annotations ome) (scan_any_annotation int) ([], []))
    (λ '(img_map, filelist),
      bind (keep_positive int any_id (any_annotations ome)) (λ anns,
        bind (strip_refs int (any_images ome)) (λ imgs,
          Ok ({| any_images := imgs; any_annotations := anns |},
              (λ kv : string * list Z, (kv.1, sorted kv.2)) <$> img_map,
              list_of_set filelist)))).

(** A document of strings among these. *)
Definition any_annotation (a : Annotation) : AnyAnnotation :=
  {| any_id := ann_id a;
     any_namespace := Some (ann_namespace a);
     any_value := Some (ann_value a) |}.

Definition any_ome (ome : OME) : AnyOME :=
  {| any_images := images ome;
     any_annotations := any_annotation <$> structured_annotations ome |}.

(** A sentinel that lacks its namespace or its value. *)
Definition lacks_field (int : string → option Z) (a : AnyAnnotation) : Prop :=
  is_sentinel int (any_id a) ∧ (any_namespace a = None ∨ any_value a = None).

(** A document [_create_image_map] reads without an exception: every
    identifier ends in an integer, and every sentinel has a value and a
    namespace that ends in an integer. *)
Definition readable_any (int : string → option Z) (ome : AnyOME) : Prop :=
  Forall (λ a, parses int (any_id a) ∧
               (is_sentinel int (any_id a) →
                is_Some (any_value a) ∧
                ∃ namespace, any_namespace a = Some namespace ∧
                             parses int namespace))
         (any_annotations ome) ∧
  Forall (λ i, Forall (λ r, parses int (ref_id r)) (annotation_ref i))
         (any_images ome).

(** ** [pack] and [unpack] with collaborators that raise

    [_copy_files], [_import_files], [__pack] and [__unpack] once more, with
    every call that leaves the process free to raise.  [perform] stands for
    the calls whose result is not used: [os.makedirs],
    [shutil.make_archive], [shutil.rmtree], [shutil.unpack_archive] and
    [populate_omero]; it gets the effect, may change the world and may
    raise.  [loadplugins] is [cli = CLI(); cli.loadplugins()], [query] the
    projection of the query service, [repositories] the listing of the
    repositories with their casts; [populate_xml] and [from_xml] give
    their result or raise.  An effect is put in the trace when the call is
    made, whether it comes back or not.  The definitions above are the case
    in which all these calls come back. *)

Section Raising.

Context {Server : Type}.
Variable int : string → option Z.
Variable list_of_set : list string → list string.
Variable invoke : list string → Server → invoke_outcome * Server.
Variable query : string → Server → result (list Z).
Variable loadplugins : Server → result ().
Variable perform : effect → Server → result () * Server.
Variable repositories : Server → result (list Repository).
Variable populate_xml :
  string → Z → string → string → Server → result (dict string) * Server.
Variable from_xml : string → Server → result OME.

(** Lines 143-148: one round of the loop of [_copy_files]. *)
Definition copy_file_raising (folder repo : string) (id path : string)
    (srv : Server) : result () * Server * list effect :=
  match repo with
  | EmptyString => (Raise ValueError, srv, [])
  | _ =>
      let rel_path := tail (last_item (split repo path)) in
      let rel_path := str (parent (parse rel_path)) in
      let subfolder := str (truediv (parse folder) rel_path) in
      let argv := ["download"; id; subfolder] in
      match perform (MakeDirs subfolder) srv with
      | (Raise e, srv1) => (Raise e, srv1, [MakeDirs subfolder])
      | (Ok _, srv1) =>
          match invoke argv srv1 with
          | (Raised e, srv2) => (Raise e, srv2, [MakeDirs subfolder; Invoke argv])
          | (Returned _, srv2) => (Ok (), srv2, [MakeDirs subfolder; Invoke argv])
          end
      end
  end.

(** Lines 142-148: the loop of [_copy_files]. *)
Fixpoint copy_loop_raising (id_list : dict string) (folder repo : string)
    (srv : Server) : result () * Server * list effect :=
  match id_list with
  | [] => (Ok (), srv, [])
  | (id, path) :: id_list' =>
      match copy_file_raising folder repo id path srv with
      | (Raise e, srv', tr) => (Raise e, srv', tr)
      | (Ok _, srv', tr) =>
          let '(r, srv'', tr') := copy_loop_raising id_list' folder repo srv' in
          (r, srv'', tr ++ tr')
      end
  end.

(** [_copy_files(id_list, folder, repo)] *)
Definition _copy_files_raising (id_list : dict string) (folder repo : string)
    (srv : Server) : result () * Server * list effect :=
  match loadplugins srv with
  | Raise e => (Raise e, srv, [])
  | Ok _ => copy_loop_raising id_list folder repo srv
  end.

(** [_get_image_ids(file_path)] *)
Definition _get_image_ids_raising (file_path : string) (srv : Server)
  : result (list Z) :=
  bind (query (strip_slash file_path) srv) (λ results, Ok (sorted results)).

(** Lines 222-232: the loop of [_import_files]. *)
Fixpoint import_loop_raising (folder : string) (ln_s : bool)
    (filelist : list string) (dest_map : dict (list Z)) (srv : Server)
  : result (dict (list Z)) * Server * list effect :=
  match filelist with
  | [] => (Ok dest_map, srv, [])
  | filepath :: rest =>
      let dest_path := join folder ["."; filepath] in
      let argv := import_argv dest_path ln_s in
      match invoke argv srv with
      | (Raised e, srv') => (Raise e, srv', [Invoke argv])
      | (Returned _, srv') =>
          match _get_image_ids_raising dest_path srv' with
          | Raise e => (Raise e, srv', [Invoke argv])
          | Ok img_ids =>
              let '(r, srv'', tr) :=
                import_loop_raising folder ln_s rest
                  (set dest_path img_ids dest_map) srv'
              in (r, srv'', Invoke argv :: tr)
          end
      end
  end.

(** [_import_files(folder, filelist, ln_s)] *)
Definition _import_files_raising (folder : path) (filelist : list string)
    (ln_s : bool) (srv : Server)
  : result (dict (list Z)) * Server * list effect :=
  match loadplugins srv with
  | Raise e => (Raise e, srv, [])
  | Ok _ => import_loop_raising (str folder) ln_s filelist [] srv
  end.

(** [__pack(args)] *)
Definition __pack_raising (object : model_object) (filepath : string)
    (srv : Server) : result () * Server * list effect :=
  match src_datatype_and_id object with
  | None => (Ok (), srv, [Print "Object is not a project, dataset or image"])
  | Some (src_datatype, src_dataid) =>
      let zip_path := parse filepath in
      let folder := str zip_path +:+ "_folder" in
      let xml_fp := str (truediv (parse folder) "transfer.xml") in
      let tr1 := [Print "Populating xml..."; MakeDirs folder] in
      match perform (MakeDirs folder) srv with
      | (Raise e, srv1) => (Raise e, srv1, tr1)
      | (Ok _, srv1) =>
          match repositories srv1 with
          | Raise e => (Raise e, srv1, tr1)
          | Ok repos =>
              match _get_path_to_repo repos with
              | [] => (Raise IndexError, srv1, tr1)
              | repo :: _ =>
                  let tr2 :=
                    tr1 ++ [PopulateXml src_datatype src_dataid xml_fp repo] in
                  match populate_xml src_datatype src_dataid xml_fp repo srv1 with
                  | (Raise e, srv2) => (Raise e, srv2, tr2)
                  | (Ok path_id_dict, srv2) =>
                      let tr3 :=
                        tr2 ++ [Print ("XML saved at " +:+ xml_fp +:+ ".");
                                Print "Starting file copy..."] in
                      match _copy_files_raising path_id_dict folder repo srv2 with
                      | (Raise e, srv3, tr) => (Raise e, srv3, tr3 ++ tr)
                      | (Ok _, srv3, tr) =>
                          let archive :=
                            MakeArchive (splitext (str zip_path)).1 folder in
                          let tr4 :=
                            tr3 ++ tr ++ [Print "Creating zip file..."; archive] in
                          match perform archive srv3 with
                          | (Raise e, srv4) => (Raise e, srv4, tr4)
                          | (Ok _, srv4) =>
                              let tr5 :=
                                tr4 ++ [Print "Cleaning up..."; RmTree folder] in
                              match perform (RmTree folder) srv4 with
                              | (Raise e, srv5) => (Raise e, srv5, tr5)
                              | (Ok _, srv5) => (Ok (), srv5, tr5)
                              end
                          end
                      end
                  end
              end
          end
      end
  end.

(** [__unpack(args)] *)
Definition __unpack_raising (filepath : string) (output : option string)
    (ln_s_import : bool) (srv : Server) : result () * Server * list effect :=
  let folder := unpack_folder filepath output in
  let tr0 :=
    [Print ("Unzipping " +:+ filepath +:+ "...");
     UnpackArchive filepath (str folder)] in
  match perform (UnpackArchive filepath (str folder)) srv with
  | (Raise e, srv0) => (Raise e, srv0, tr0)
  | (Ok _, srv0) =>
      match from_xml (str (truediv folder "transfer.xml")) srv0 with
      | Raise e => (Raise e, srv0, tr0)
      | Ok ome =>
          let tr1 :=
            tr0 ++ [Print "Generating Image mapping and import filelist..."] in
          match _create_image_map int list_of_set ome with
          | Raise e => (Raise e, srv0, tr1)
          | Ok (ome', src_img_map, filelist) =>
              let tr2 := tr1 ++ [Print "Importing data as orphans..."] in
              match _import_files_raising folder filelist ln_s_import srv0 with
              | (Raise e, srv1, tr) => (Raise e, srv1, tr2 ++ tr)
              | (Ok dest_img_map, srv1, tr) =>
                  let tr3 :=
                    tr2 ++ tr ++
                    [Print "Matching source and destination images..."] in
                  match _make_image_map src_img_map dest_img_map with
                  | Raise e => (Raise e, srv1, tr3)
                  | Ok img_map =>
                      let tr4 :=
                        tr3 ++ [Print "Creating and linking OMERO objects...";
                                PopulateOmero ome' img_map] in
                      match perform (PopulateOmero ome' img_map) srv1 with
                      | (Raise e, srv2) => (Raise e, srv2, tr4)
                      | (Ok _, srv2) => (Ok (), srv2, tr4)
                      end
                  end
              end
          end
      end
  end.

(** The staging of [__pack] came back: the staging folder was made, a
    managed repository found, the XML written and every file copied,
    leaving the world in [srv3] after the effects [tr] of the copy. *)
Definition pack_staged (object : model_object) (filepath : string)
    (srv srv3 : Server) (tr : list effect) : Prop :=
  let folder := str (parse filepath) +:+ "_folder" in
  ∃ datatype id srv1 repos r rs path_id_dict srv2,
    src_datatype_and_id object = Some (datatype, id) ∧
    perform (MakeDirs folder) srv = (Ok (), srv1) ∧
    repositories srv1 = Ok repos ∧
    filter (λ r, is_mrepo r = true) repos = r :: rs ∧
    populate_xml datatype id (str (truediv (parse folder) "transfer.xml"))
      (desc_path r +:+ desc_name r) srv1 = (Ok path_id_dict, srv2) ∧
    _copy_files_raising path_id_dict folder (desc_path r +:+ desc_name r) srv2
      = (Ok (), srv3, tr).

(** The stages of [__unpack] before [populate_omero] came back: the
    archive was unpacked, the document read and stripped to [ome'], every
    file imported and the identifiers reconciled to [img_map], leaving the
    world in [srv1]. *)
Definition unpack_staged (filepath : string) (output : option string)
    (ln_s_import : bool) (srv srv1 : Server) (ome' : OME) (img_map : dict Z)
  : Prop :=
  let folder := unpack_folder filepath output in
  ∃ srv0 ome src_img_map filelist dest_img_map tr,
    perform (UnpackArchive filepath (str folder)) srv = (Ok (), srv0) ∧
    from_xml (str (truediv folder "transfer.xml")) srv0 = Ok ome ∧
    _create_image_map int list_of_set ome = Ok (ome', src_img_map, filelist) ∧
    _import_files_raising folder filelist ln_s_import srv0
      = (Ok dest_img_map, srv1, tr) ∧
    _make_image_map src_img_map dest_img_map = Ok img_map.

End Raising.

Arguments copy_file_raising {Server} invoke perform folder repo id path srv.
Arguments copy_loop_raising {Server} invoke perform id_list folder repo srv.
Arguments _copy_files_raising {Server} invoke loadplugins perform
  id_list folder repo srv.
Arguments _get_image_ids_raising {Server} query file_path srv.
Arguments import_loop_raising {Server} invoke query folder ln_s filelist
  dest_map srv.
Arguments _import_files_raising {Server} invoke query loadplugins
  folder filelist ln_s srv.
Arguments __pack_raising {Server} invoke loadplugins perform repositories
  populate_xml object filepath srv.
Arguments __unpack_raising {Server} int list_of_set invoke query loadplugins
  perform from_xml filepath output ln_s_import srv.
Arguments pack_staged {Server} invoke loadplugins perform repositories
  populate_xml object filepath srv srv3 tr.
Arguments unpack_staged {Server} int list_of_set invoke query loadplugins
  perform from_xml filepath output ln_s_import srv srv1 ome' img_map.

(** A world for examples in which the calls picked out by [fails] raise
    and the others come back without changing anything. *)
Definition example_perform (fails : effect → bool) (e : effect)
    (srv : list (list string)) : result () * list (list string) :=
  if fails e then (Raise (External "os"), srv) else (Ok (), srv).

(** A document whose second sentinel has no namespace. *)
Definition document_without_namespace : AnyOME :=
  {| any_images := [];
     any_annotations :=
       [{| any_id := "Annotation:-1"; any_namespace := Some "Image:501";
           any_value := Some "/repo/./a/img.tif" |};
        {| any_id := "Annotation:-2"; any_namespace := None;
           any_value := Some "/repo/./a/img.tif" |}] |}.

(** * Properties *)

(** ** Strings, [find] and [split] *)

#[local] Arguments String.append !_ _ / : simpl nomatch.

Section StringFacts.

Implicit Types s p sep a b : string.

Lemma append_assoc s1 s2 s3 : (s1 +:+ s2) +:+ s3 = s1 +:+ s2 +:+ s3.
Proof. induction s1 as [|c s1 IH]; simpl; [done | by rewrite IH]. Qed.

Lemma length_append s1 s2 :
  String.length (s1 +:+ s2) = (String.length s1 + String.length s2)%nat.
Proof. induction s1 as [|c s1 IH]; simpl; [done | by rewrite IH]. Qed.

(** Two ways of cutting one string: the shorter head is a prefix of the
    longer one. *)
Lemma append_eq_split a x p y :
  a +:+ x = p +:+ y → (String.length a ≤ String.length p)%nat →
  ∃ q, p = a +:+ q ∧ x = q +:+ y.
Proof.
  revert p. induction a as [|c a IH]; intros p Heq Hlen; simpl in *.
  - by exists p.
  - destruct p as [|c' p]; simpl in *; [lia |].
    injection Heq as -> Heq.
    destruct (IH p Heq) as (q & -> & ->); [lia |]. by exists q.
Qed.

Lemma strip_prefix_Some p s r : strip_prefix p s = Some r ↔ s = p +:+ r.
Proof.
  revert s. induction p as [|c p IH]; intros s; simpl.
  - split; congruence.
  - destruct s as [|c' s]; [split; discriminate |].
    destruct (decide (c = c')) as [->|Hne].
    + rewrite IH. split; [by intros -> | by intros [= ->]].
    + split; [discriminate | intros [= ? _]; done].
Qed.

Lemma find_Some sep s a b : find sep s = Some (a, b) → s = a +:+ sep +:+ b.
Proof.
  revert a. induction s as [|c s IH]; intros a; simpl.
  - destruct (strip_prefix sep "") as [r|] eqn:Hp; [|discriminate].
    intros [= <- <-]. apply strip_prefix_Some in Hp. exact Hp.
  - destruct (strip_prefix sep (String c s)) as [r|] eqn:Hp.
    + intros [= <- <-]. apply strip_prefix_Some in Hp. exact Hp.
    + destruct (find sep s) as [[a' b']|]; [|discriminate].
      intros [= <- <-]. simpl. f_equal. by apply IH.
Qed.

(** [find] stops at the first occurrence. *)
Lemma find_first sep s a b a' b' :
  find sep s = Some (a, b) → s = a' +:+ sep +:+ b' →
  (String.length a ≤ String.length a')%nat.
Proof.
  revert a a'. induction s as [|c s IH]; intros a a'; simpl.
  - destruct (strip_prefix sep "") as [r|]; [|discriminate].
    intros [= <- <-] _. simpl. lia.
  - destruct (strip_prefix sep (String c s)) as [r|] eqn:Hp.
    { intros [= <- <-] _. simpl. lia. }
    destruct (find sep s) as [[a0 b0]|] eqn:Hf; [|discriminate].
    intros [= <- <-] Heq. destruct a' as [|c' a']; simpl in *.
    + apply strip_prefix_Some in Heq. congruence.
    + injection Heq as -> Heq. specialize (IH _ _ eq_refl Heq). lia.
Qed.

Lemma find_None sep s : find sep s = None ↔ ¬ occurs sep s.
Proof.
  split.
  - induction s as [|c s IH]; simpl.
    + destruct (strip_prefix sep "") as [r|] eqn:Hp; [discriminate |].
      intros _ (a & b & Heq). destruct a; simpl in Heq.
      * apply strip_prefix_Some in Heq. congruence.
      * discriminate.
    + destruct (strip_prefix sep (String c s)) as [r|] eqn:Hp; [discriminate |].
      destruct (find sep s) as [[a0 b0]|] eqn:Hf; [discriminate |].
      intros _ (a & b & Heq). destruct a as [|c' a]; simpl in Heq.
      * apply strip_prefix_Some in Heq. congruence.
      * injection Heq as -> Heq. apply IH; [done |]. by exists a, b.
  - intros Hno. destruct (find sep s) as [[a b]|] eqn:Hf; [|done].
    destruct Hno. exists a, b. by apply find_Some.
Qed.

Lemma find_shrinks sep s a b :
  sep ≠ "" → find sep s = Some (a, b) →
  (String.length b < String.length s)%nat.
Proof.
  intros Hsep Hf. apply find_Some in Hf as ->.
  rewrite !length_append. destruct sep; [done |]. simpl. lia.
Qed.

(** Any fuel from the length of the string on gives the same fields. *)
Lemma split_fuel_enough sep s n m :
  sep ≠ "" → (String.length s ≤ n)%nat → (String.length s ≤ m)%nat →
  split_fuel n sep s = split_fuel m sep s.
Proof.
  intros Hsep. revert s m. induction n as [|n IH]; intros s m Hn Hm.
  - destruct s; simpl in Hn; [|lia].
    destruct m; cbn [split_fuel]; [done |].
    destruct (find sep "") as [[a b]|] eqn:Hf; [|done].
    apply find_shrinks in Hf; [simpl in Hf; lia | done].
  - cbn [split_fuel]. destruct (find sep s) as [[a b]|] eqn:Hf.
    + pose proof (find_shrinks _ _ _ _ Hsep Hf) as Hlt.
      destruct m as [|m]; [lia |]. cbn [split_fuel]. rewrite Hf.
      f_equal. apply IH; lia.
    + destruct m; cbn [split_fuel]; [done | by rewrite Hf].
Qed.

(** The loop of [str.split], one round at a time. *)
Lemma split_unfold sep s :
  sep ≠ "" →
  split sep s =
    match find sep s with
    | Some (a, b) => a :: split sep b
    | None => [s]
    end.
Proof.
  intros Hsep. unfold split.
  destruct (find sep s) as [[a b]|] eqn:Hf.
  - pose proof (find_shrinks _ _ _ _ Hsep Hf) as Hlt.
    destruct (String.length s) as [|n] eqn:Hlen; [lia |].
    cbn [split_fuel]. rewrite Hf. f_equal.
    apply split_fuel_enough; [done | lia | lia].
  - destruct (String.length s); cbn [split_fuel]; [done | by rewrite Hf].
Qed.

Lemma split_fuel_nonempty n sep s : split_fuel n sep s ≠ [].
Proof.
  destruct n; cbn [split_fuel]; [done |]. by destruct (find sep s) as [[??]|].
Qed.

Lemma last_item_split_unfold sep s :
  sep ≠ "" →
  last_item (split sep s) =
    match find sep s with
    | Some (a, b) => last_item (split sep b)
    | None => s
    end.
Proof.
  intros Hsep. rewrite split_unfold by done.
  destruct (find sep s) as [[a b]|]; [|done].
  unfold last_item, split.
  destruct (split_fuel (String.length b) sep b) eqn:Hs; [|done].
  by apply split_fuel_nonempty in Hs.
Qed.

(** Strong induction on the length of a string. *)
Lemma string_length_ind (P : string → Prop) :
  (∀ s, (∀ t, (String.length t < String.length s)%nat → P t) → P s) →
  ∀ s, P s.
Proof.
  intros Hstep s. remember (String.length s) as n eqn:Hn.
  revert s Hn. induction (lt_wf n) as [n _ IH]. intros s ->.
  apply Hstep. intros t Ht. by eapply IH.
Qed.

End StringFacts.

(** ** The join key *)

Section Normalize.

Lemma normalize_unfold k :
  normalize k =
    match find "/./" k with
    | Some (_, after) => normalize after
    | None => k
    end.
Proof.
  unfold normalize. rewrite last_item_split_unfold by done.
  by destruct (find "/./" k) as [[??]|].
Qed.

(** A key without the marker is its own join key. *)
Lemma normalize_no_marker k : ¬ occurs "/./" k → normalize k = k.
Proof.
  intros Hno. rewrite normalize_unfold.
  apply find_None in Hno. by rewrite Hno.
Qed.

(** The join key holds no marker. *)
Lemma normalize_marker_free k : ¬ occurs "/./" (normalize k).
Proof.
  induction k as [k IH] using string_length_ind.
  rewrite normalize_unfold.
  destruct (find "/./" k) as [[a b]|] eqn:Hf.
  - apply IH. by apply (find_shrinks "/./" k a b).
  - by apply find_None.
Qed.

(** The join key is the key itself or what follows one of its markers. *)
Lemma normalize_suffix k :
  normalize k = k ∨ ∃ p, k = p +:+ "/./" +:+ normalize k.
Proof.
  induction k as [k IH] using string_length_ind.
  rewrite normalize_unfold.
  destruct (find "/./" k) as [[a b]|] eqn:Hf; [|by left].
  right. pose proof (find_Some _ _ _ _ Hf) as ->.
  destruct (IH b) as [->|[p Hp]];
    [by apply (find_shrinks "/./" _ a b) | by exists a |].
  exists (a +:+ "/./" +:+ p). rewrite !append_assoc. by rewrite <-Hp.
Qed.

Lemma occurs_append_r sep p s : occurs sep s → occurs sep (p +:+ s).
Proof.
  intros (a & b & ->). exists (p +:+ a), b. by rewrite append_assoc.
Qed.

(** When the markers of a key do not overlap, the join key is what
    follows the last of them. *)
Lemma normalize_last_marker p s :
  ¬ occurs "/./" s → ¬ occurs "/././" (p +:+ "/./" +:+ s) →
  normalize (p +:+ "/./" +:+ s) = s.
Proof.
  revert s. induction p as [p IH] using string_length_ind.
  intros s Hs Hover. rewrite normalize_unfold.
  destruct (find "/./" (p +:+ "/./" +:+ s)) as [[a b]|] eqn:Hf.
  2:{ apply find_None in Hf. destruct Hf. by exists p, s. }
  pose proof (find_first _ _ _ _ _ _ Hf eq_refl) as Hlen.
  pose proof (find_Some _ _ _ _ Hf) as Heq.
  symmetry in Heq.
  destruct (append_eq_split _ _ _ _ Heq Hlen) as (q & -> & Hq).
  destruct q as [|c1 [|c2 [|c3 q]]]; simpl in Hq.
  - injection Hq as ->. by apply normalize_no_marker.
  - injection Hq as <- Hq. discriminate.
  - injection Hq as <- <- ->. destruct Hover.
    exists a, s. by rewrite !append_assoc.
  - injection Hq as <- <- <- ->. apply IH; [| done |].
    + rewrite length_append. simpl. lia.
    + intros Hocc. apply Hover. rewrite append_assoc.
      apply occurs_append_r. by apply (occurs_append_r _ "/./").
Qed.

End Normalize.

(** ** Dictionaries *)

Section DictFacts.

Context {V : Type}.
Implicit Types (d : dict V) (k j : string).

Lemma get_set_eq k (v : V) d : get k (set k v d) = Some v.
Proof.
  induction d as [|[k' v'] d IH]; simpl.
  - by rewrite decide_True.
  - destruct (decide (k' = k)) as [->|Hne]; simpl.
    + by rewrite decide_True.
    + by rewrite decide_False.
Qed.

Lemma get_set_ne k j (v : V) d : k ≠ j → get j (set k v d) = get j d.
Proof.
  intros Hne. induction d as [|[k' v'] d IH]; simpl.
  - by rewrite decide_False.
  - destruct (decide (k' = k)) as [->|Hne']; simpl.
    + by rewrite !decide_False.
    + destruct (decide (k' = j)); [done | apply IH].
Qed.

Lemma get_Some_elem k (v : V) d : get k d = Some v → (k, v) ∈ d.
Proof.
  induction d as [|[k' v'] d IH]; simpl; [done |].
  destruct (decide (k' = k)) as [->|Hne].
  - intros [= ->]. apply list_elem_of_here.
  - intros Hg. apply list_elem_of_further. by apply IH.
Qed.

Lemma get_None_keys k d : get k d = None ↔ k ∉ d.*1.
Proof.
  induction d as [|[k' v'] d IH]; simpl.
  - split; [intros _ H; by apply elem_of_nil in H | done].
  - rewrite not_elem_of_cons. destruct (decide (k' = k)); naive_solver.
Qed.

Lemma get_NoDup_elem k (v : V) d : NoDup d.*1 → (k, v) ∈ d → get k d = Some v.
Proof.
  induction d as [|[k' v'] d IH]; simpl.
  - intros _ H. by apply elem_of_nil in H.
  - intros [Hk Hnd]%NoDup_cons [[= -> ->]|Hin]%elem_of_cons.
    + by rewrite decide_True.
    + rewrite decide_False; [by apply IH |].
      intros ->. apply Hk. apply list_elem_of_fmap. by exists (k, v).
Qed.

End DictFacts.

Section DefaultDictFacts.

Context {V : Type}.
Implicit Types (d : dict (list V)) (k j : string).

Lemma getitem_extend k j (v : list V) d :
  getitem_default j (extend k v d) =
    if decide (k = j) then getitem_default j d ++ v else getitem_default j d.
Proof.
  unfold getitem_default, extend. destruct (decide (k = j)) as [->|Hne].
  - by rewrite get_set_eq.
  - by rewrite get_set_ne.
Qed.

Lemma get_extend_is_Some k j (v : list V) d :
  is_Some (get j (extend k v d)) ↔ k = j ∨ is_Some (get j d).
Proof.
  unfold extend. destruct (decide (k = j)) as [->|Hne].
  - rewrite get_set_eq. naive_solver.
  - rewrite get_set_ne by done. naive_solver.
Qed.

Lemma get_getitem_default j d (v : list V) :
  get j d = Some v → getitem_default j d = v.
Proof. unfold getitem_default. by intros ->. Qed.

End DefaultDictFacts.

(** ** Loops that can raise *)

Section ForEach.

Context {A X : Type}.
Implicit Types (body : A → X → result A) (xs : list X).

Lemma for_each_fmap {Y} (f : Y → X) (ys : list Y) body acc :
  for_each (f <$> ys) body acc = for_each ys (λ a y, body a (f y)) acc.
Proof.
  revert acc. induction ys as [|y ys IH]; intros acc; simpl; [done |].
  destruct (body acc (f y)); simpl; [apply IH | done].
Qed.

Lemma for_each_ext xs body body' acc :
  (∀ a x, x ∈ xs → body a x = body' a x) →
  for_each xs body acc = for_each xs body' acc.
Proof.
  revert acc. induction xs as [|x xs IH]; intros acc Heq; simpl; [done |].
  rewrite <-Heq by apply list_elem_of_here.
  destruct (body acc x) as [acc'|]; simpl; [|done].
  apply IH. intros b y Hy. apply Heq. by apply list_elem_of_further.
Qed.

(** A loop with a round that raises whatever it is given raises, when
    its rounds can raise one exception only. *)
Lemma for_each_raises xs body acc x e :
  x ∈ xs → (∀ a, body a x = Raise e) →
  (∀ a y e', body a y = Raise e' → e' = e) →
  for_each xs body acc = Raise e.
Proof.
  intros Hx Hraise Honly. revert acc.
  induction xs as [|y xs IH]; intros acc; [by apply elem_of_nil in Hx |].
  simpl. apply elem_of_cons in Hx as [<-|Hx].
  - by rewrite Hraise.
  - destruct (body acc y) as [a|e'] eqn:Hb; simpl; [by apply IH |].
    by rewrite (Honly _ _ _ Hb).
Qed.

End ForEach.

(** ** Pairing the identifiers of one join key *)

Section PairLists.

Implicit Types (src_v dest_v : list Z) (imgmap : dict Z).

Lemma pair_lists_cons_cons s src_v d dest_v imgmap :
  pair_lists (s :: src_v) (d :: dest_v) imgmap =
    pair_lists src_v dest_v (set (map_key s) d imgmap).
Proof.
  unfold pair_lists. cbn [length seq for_each].
  unfold pair_at at 1. cbn [lookup list_lookup bind].
  rewrite <-fmap_S_seq, for_each_fmap. by apply for_each_ext.
Qed.

(** Enough destination identifiers: the source identifiers are paired
    with the first of them, in order, and the rest is not looked at. *)
Lemma pair_lists_ok src_v dest_v imgmap :
  (length src_v ≤ length dest_v)%nat →
  pair_lists src_v dest_v imgmap = Ok (insert_pairs imgmap (zip src_v dest_v)).
Proof.
  revert dest_v imgmap. induction src_v as [|s src_v IH]; intros dest_v imgmap Hlen.
  - done.
  - destruct dest_v as [|d dest_v]; simpl in Hlen; [lia |].
    rewrite pair_lists_cons_cons, IH by lia. done.
Qed.

(** Too few destination identifiers: an index runs off the list. *)
Lemma pair_lists_short src_v dest_v imgmap :
  (length dest_v < length src_v)%nat →
  pair_lists src_v dest_v imgmap = Raise IndexError.
Proof.
  revert dest_v imgmap. induction src_v as [|s src_v IH]; intros dest_v imgmap Hlen.
  - simpl in Hlen. lia.
  - destruct dest_v as [|d dest_v]; [done |].
    rewrite pair_lists_cons_cons. apply IH. simpl in Hlen. lia.
Qed.

Lemma pair_lists_raise_only src_v dest_v imgmap e :
  pair_lists src_v dest_v imgmap = Raise e → e = IndexError.
Proof.
  destruct (decide (length src_v ≤ length dest_v)%nat).
  - by rewrite pair_lists_ok.
  - rewrite pair_lists_short by lia. congruence.
Qed.

End PairLists.

(** ** [_make_image_map] as a whole *)

Section MakeImageMap.

Implicit Types (source_map dest_map : dict (list Z)).

(** No join key of the source has more identifiers than the destination
    has under it: every pair of [pairing] is assigned, in order. *)
Lemma make_image_map_ok source_map dest_map :
  (∀ k src_v, (k, src_v) ∈ merge_by_suffix source_map →
     (length src_v ≤ length (getitem_default k (merge_by_suffix dest_map)))%nat) →
  _make_image_map source_map dest_map =
    Ok (insert_pairs []
          (pairing (merge_by_suffix source_map) (merge_by_suffix dest_map))).
Proof.
  intros Hlen. unfold _make_image_map, pairing.
  generalize (@nil (string * Z)) as imgmap.
  induction (merge_by_suffix source_map) as [|[k src_v] src_dict IH];
    intros imgmap; [done |].
  cbn [for_each mbind list_bind]. simpl.
  rewrite pair_lists_ok by (apply Hlen, list_elem_of_here). simpl.
  rewrite IH.
  - unfold insert_pairs. by rewrite foldl_app.
  - intros k' v' Hin. apply Hlen. by apply list_elem_of_further.
Qed.

(** Some join key of the source has more identifiers than the
    destination has under it: the call raises. *)
Lemma make_image_map_raises source_map dest_map k src_v :
  (k, src_v) ∈ merge_by_suffix source_map →
  (length (getitem_default k (merge_by_suffix dest_map)) < length src_v)%nat →
  _make_image_map source_map dest_map = Raise IndexError.
Proof.
  intros Hin Hlen. unfold _make_image_map.
  eapply for_each_raises; [exact Hin | |].
  - intros a. by apply pair_lists_short.
  - intros a y e'. apply pair_lists_raise_only.
Qed.

End MakeImageMap.

(** ** Assignments to the identity map *)

Section InsertPairs.

Lemma map_key_inj n1 n2 : map_key n1 = map_key n2 → n1 = n2.
Proof.
  unfold map_key, str_of_int. intros Heq.
  apply (inj (String.append "Image:")) in Heq. by apply (inj pretty).
Qed.

Lemma insert_pairs_snoc imgmap pairs sd :
  insert_pairs imgmap (pairs ++ [sd]) =
    set (map_key sd.1) sd.2 (insert_pairs imgmap pairs).
Proof. unfold insert_pairs. by rewrite foldl_snoc. Qed.

(** With source identifiers that are all different, the map ends up
    holding every assignment made. *)
Lemma get_insert_pairs imgmap pairs s d :
  NoDup pairs.*1 → (s, d) ∈ pairs →
  get (map_key s) (insert_pairs imgmap pairs) = Some d.
Proof.
  induction pairs as [|[s' d'] pairs IH] using rev_ind;
    [intros _ H; by apply elem_of_nil in H |].
  rewrite fmap_app, insert_pairs_snoc. simpl.
  intros [Hnd [Hfresh _]]%NoDup_app [Hin|Hin%list_elem_of_singleton]%elem_of_app.
  - rewrite get_set_ne; [by apply IH |].
    intros Heq%map_key_inj. subst s'. apply (Hfresh s).
    + apply list_elem_of_fmap. by exists (s, d).
    + apply list_elem_of_here.
  - injection Hin as -> ->. apply get_set_eq.
Qed.

End InsertPairs.

(** ** Merging a path map by join key *)

Section MergeBySuffix.

Implicit Types (m : dict (list Z)) (j : string).

Lemma set_keys_NoDup {V} k (v : V) (d : dict V) :
  NoDup d.*1 → NoDup (set k v d).*1.
Proof.
  induction d as [|[k' v'] d IH]; simpl.
  - intros _. apply NoDup_singleton.
  - intros [Hk Hnd]%NoDup_cons. destruct (decide (k' = k)) as [->|Hne]; simpl.
    + by apply NoDup_cons.
    + apply NoDup_cons. split; [|by apply IH].
      apply get_None_keys. rewrite get_set_ne by done.
      by apply get_None_keys.
Qed.

Lemma merge_from_keys_NoDup m d :
  NoDup d.*1 →
  NoDup (foldl (λ d kv, extend (normalize kv.1) kv.2 d) d m).*1.
Proof.
  revert d. induction m as [|kv m IH]; intros d Hd; simpl; [done |].
  apply IH. by apply set_keys_NoDup.
Qed.

(** The join keys of a merged map are all different. *)
Lemma merge_keys_NoDup m : NoDup (merge_by_suffix m).*1.
Proof. apply merge_from_keys_NoDup. constructor. Qed.

Lemma merge_from_getitem m d j :
  getitem_default j (foldl (λ d kv, extend (normalize kv.1) kv.2 d) d m) =
    getitem_default j d ++ ids_under j m.
Proof.
  revert d. induction m as [|[k v] m IH]; intros d; simpl.
  - by rewrite app_nil_r.
  - rewrite IH, getitem_extend. unfold ids_under. simpl.
    destruct (decide (normalize k = j)); [by rewrite <-app_assoc | done].
Qed.

(** Under a join key, a merged map holds the identifier lists of the raw
    keys that share it, appended in iteration order. *)
Lemma merge_getitem m j : getitem_default j (merge_by_suffix m) = ids_under j m.
Proof. unfold merge_by_suffix. by rewrite merge_from_getitem. Qed.

Lemma merge_from_in_dom m d j :
  is_Some (get j (foldl (λ d kv, extend (normalize kv.1) kv.2 d) d m)) ↔
  is_Some (get j d) ∨ ∃ kv, kv ∈ m ∧ normalize kv.1 = j.
Proof.
  revert d. induction m as [|kv m IH]; intros d; simpl.
  - split; [by left | intros [?|(kv & H & _)]; [done | by apply elem_of_nil in H]].
  - rewrite IH, get_extend_is_Some. split.
    + intros [[Hk|Hd]|(kv' & Hin & Hk)].
      * right. exists kv. split; [apply list_elem_of_here | done].
      * by left.
      * right. exists kv'. split; [by apply list_elem_of_further | done].
    + intros [Hd|(kv' & [->|Hin]%elem_of_cons & Hk)].
      * left. by right.
      * left. by left.
      * right. by exists kv'.
Qed.

(** The join keys of a merged map are the join keys of its raw keys. *)
Lemma merge_in_dom m j :
  is_Some (get j (merge_by_suffix m)) ↔ ∃ kv, kv ∈ m ∧ normalize kv.1 = j.
Proof.
  unfold merge_by_suffix. rewrite merge_from_in_dom. split; [|by right].
  intros [[v Hv]|H]; [done | exact H].
Qed.

Lemma merge_elem m k v : (k, v) ∈ merge_by_suffix m → v = ids_under k m.
Proof.
  intros Hin. rewrite <-merge_getitem.
  apply get_NoDup_elem in Hin; [|apply merge_keys_NoDup].
  by rewrite (get_getitem_default _ _ _ Hin).
Qed.

(** The pairs reconciliation goes through, from the raw maps. *)
Lemma pairing_ids_under source_map dest_map :
  pairing (merge_by_suffix source_map) (merge_by_suffix dest_map) =
    kv ← merge_by_suffix source_map;
    zip (ids_under kv.1 source_map) (ids_under kv.1 dest_map).
Proof.
  unfold pairing. apply Forall_bind_ext, Forall_forall.
  intros [k v] Hin. simpl. by rewrite merge_getitem, (merge_elem _ _ _ Hin).
Qed.

End MergeBySuffix.

(** * Identity reconciliation: [_make_image_map] *)

(** ** Join keys *)

(** C1, as the code has it.  The join key of a path is the last field of
    the path split on the marker [/./].  For every path it holds no
    marker, and it is the path itself or what follows one of its markers:
    a path without the marker is kept whole; a path whose markers do not
    overlap (it does not contain [/././]) is cut to what follows its last
    marker.  The join keys of a merged path map are exactly the join keys
    of its raw keys.  So [/repo/./img.tif] and [/staging/./img.tif] meet
    under [img.tif] and their images are paired. *)
Theorem join_key_is_last_split_field (k : string) :
  ¬ occurs "/./" (normalize k) ∧
  (normalize k = k ∨ ∃ p, k = p +:+ "/./" +:+ normalize k) ∧
  (¬ occurs "/./" k → normalize k = k) ∧
  (∀ p s, k = p +:+ "/./" +:+ s → ¬ occurs "/./" s → ¬ occurs "/././" k →
     normalize k = s) ∧
  (∀ (m : dict (list Z)) j,
     is_Some (get j (merge_by_suffix m)) ↔ ∃ kv, kv ∈ m ∧ normalize kv.1 = j) ∧
  normalize "/repo/./img.tif" = "img.tif" ∧
  normalize "/staging/./img.tif" = "img.tif" ∧
  _make_image_map [("/repo/./img.tif", [501])] [("/staging/./img.tif", [9001])]
    = Ok [("Image:501", 9001)].
Proof.
  split; [apply normalize_marker_free |].
  split; [apply normalize_suffix |].
  split; [apply normalize_no_marker |].
  split; [intros p s -> Hs Hover; by apply normalize_last_marker |].
  split; [apply merge_in_dom |].
  by vm_compute.
Qed.

Lemma join_key_is_last_split_field_witness :
  normalize "/staging/./img.tif" = "img.tif" ∧
  normalize "README" = "README".
Proof.
  split.
  - apply (proj1 (proj2 (proj2 (proj2
             (join_key_is_last_split_field "/staging/./img.tif"))))
             "/staging" "img.tif").
    + reflexivity.
    + apply find_None. reflexivity.
    + apply find_None. reflexivity.
  - apply (proj1 (proj2 (proj2 (join_key_is_last_split_field "README")))).
    apply find_None. reflexivity.
Defined.

(** C1 as stated fails on its own example: [/repo/2020/01/img.tif] holds
    no marker, so it is its own join key and does not meet
    [/staging/./img.tif]; reconciling the two raises.  The suffix after the
    last marker is not what is taken either when markers overlap. *)
Lemma marker_free_key_is_not_joined :
  normalize "/repo/2020/01/img.tif" = "/repo/2020/01/img.tif" ∧
  normalize "/staging/./img.tif" = "img.tif" ∧
  normalize "/repo/2020/01/img.tif" ≠ normalize "/staging/./img.tif" ∧
  _make_image_map [("/repo/2020/01/img.tif", [501])]
                  [("/staging/./img.tif", [9001])] = Raise IndexError ∧
  "a/././b" = "a/." +:+ "/./" +:+ "b" ∧ normalize "a/././b" = "./b".
Proof. by vm_compute. Qed.

(** ** Positional pairing *)



(** C2 as stated fails: [b.tif] is held by both maps with one identifier
    on each side, but the source also lists [a.tif], which the destination
    lacks; the call raises and image 2 is paired in no map.  The order of
    the two source keys makes no difference. *)
Lemma equal_length_key_beside_short_key_raises :
  get "b.tif" (merge_by_suffix [("a.tif", [1]); ("b.tif", [2])]) = Some [2] ∧
  get "b.tif" (merge_by_suffix [("b.tif", [3])]) = Some [3] ∧
  _make_image_map [("a.tif", [1]); ("b.tif", [2])] [("b.tif", [3])]
    = Raise IndexError ∧
  _make_image_map [("b.tif", [2]); ("a.tif", [1])] [("b.tif", [3])]
    = Raise IndexError ∧
  ¬ ∃ imgmap,
      _make_image_map [("a.tif", [1]); ("b.tif", [2])] [("b.tif", [3])] = Ok imgmap.
Proof.
  repeat split; try reflexivity. intros [imgmap Hok]. vm_compute in Hok. done.
Qed.

(** ** Join keys the destination lacks *)

(** C3, as the code has it.  A join key of the source that the
    destination lacks reads as an empty destination list.  If the source
    lists identifiers under it, the first position has no destination
    identifier and the call raises [IndexError]: no map is returned, so
    nothing is left out of one and no count of unmapped identifiers is
    reported.  Only a key with no identifiers passes, its loop running
    zero times. *)
Theorem missing_destination_key_raises
    (source_map dest_map : dict (list Z)) (k : string) (src_v : list Z) :
  get k (merge_by_suffix source_map) = Some src_v →
  get k (merge_by_suffix dest_map) = None →
  getitem_default k (merge_by_suffix dest_map) = [] ∧
  (src_v ≠ [] → _make_image_map source_map dest_map = Raise IndexError) ∧
  (src_v = [] →
   ∀ imgmap,
     pair_lists src_v (getitem_default k (merge_by_suffix dest_map)) imgmap
       = Ok imgmap).
Proof.
  intros Hsrc Hdest.
  assert (getitem_default k (merge_by_suffix dest_map) = []) as Hnone
    by (unfold getitem_default; by rewrite Hdest).
  split; [done |]. split.
  - intros Hne. apply (make_image_map_raises _ _ k src_v).
    + by apply get_Some_elem.
    + rewrite Hnone. destruct src_v; [done | simpl; lia].
  - by intros ->.
Qed.

Lemma missing_destination_key_raises_witness :
  _make_image_map [("/repo/./a.tif", [501])] [("/staging/./b.tif", [9001])]
    = Raise IndexError.
Proof.
  apply (missing_destination_key_raises
           [("/repo/./a.tif", [501])] [("/staging/./b.tif", [9001])]
           "a.tif" [501] eq_refl eq_refl).
  discriminate.
Defined.

(** C3 as stated fails: [a.tif] is a join key of the source only, and the
    call raises instead of returning a map without image 501. *)
Lemma missing_destination_key_is_not_omitted :
  get "a.tif" (merge_by_suffix [("/repo/./a.tif", [501])]) = Some [501] ∧
  get "a.tif" (merge_by_suffix [("/staging/./b.tif", [9001])]) = None ∧
  _make_image_map [("/repo/./a.tif", [501])] [("/staging/./b.tif", [9001])]
    = Raise IndexError ∧
  ¬ ∃ imgmap,
      _make_image_map [("/repo/./a.tif", [501])] [("/staging/./b.tif", [9001])]
        = Ok imgmap.
Proof.
  repeat split; try reflexivity. intros [imgmap Hok]. vm_compute in Hok. done.
Qed.

(** ** Lists of different lengths *)




(** ** Raw keys that share a join key *)

(** C5.  Under a join key, each merged map holds the identifier lists of
    the raw keys that share it, appended in iteration order and not sorted
    again, and these are the lists the positions are taken from: the call,
    when no key raises, makes the assignments of the appended lists
    zipped. *)
Theorem shared_join_key_lists_are_appended (source_map dest_map : dict (list Z)) :
  (∀ j, getitem_default j (merge_by_suffix source_map) = ids_under j source_map) ∧
  (∀ j, getitem_default j (merge_by_suffix dest_map) = ids_under j dest_map) ∧
  ((∀ k v, (k, v) ∈ merge_by_suffix source_map →
      (length (ids_under k source_map) ≤ length (ids_under k dest_map))%nat) →
   _make_image_map source_map dest_map =
     Ok (insert_pairs []
           (kv ← merge_by_suffix source_map;
            zip (ids_under kv.1 source_map) (ids_under kv.1 dest_map)))).
Proof.
  split; [apply merge_getitem |]. split; [apply merge_getitem |].
  intros Hlen. rewrite <-pairing_ids_under. apply make_image_map_ok.
  intros k v Hin. rewrite merge_getitem, (merge_elem _ _ _ Hin).
  by apply (Hlen k v).
Qed.

Lemma shared_join_key_lists_are_appended_witness :
  ids_under "f.tif" [("/a/./f.tif", [7]); ("/b/./f.tif", [3])] = [7; 3] ∧
  _make_image_map [("/a/./f.tif", [7]); ("/b/./f.tif", [3])]
                  [("/x/./f.tif", [10; 11])]
    = Ok [("Image:7", 10); ("Image:3", 11)].
Proof.
  split; [reflexivity |].
  rewrite (proj2 (proj2 (shared_join_key_lists_are_appended
             [("/a/./f.tif", [7]); ("/b/./f.tif", [3])]
             [("/x/./f.tif", [10; 11])]))); [reflexivity |].
  intros k v Hin. vm_compute in Hin.
  apply list_elem_of_singleton in Hin. injection Hin as -> ->.
  vm_compute. lia.
Defined.

(** * Packet extraction: [_create_image_map] *)

Section CreateImageMap.

Variable int : string → option Z.
Variable list_of_set : list string → list string.

Lemma trailing_int_parses ident :
  parses int ident →
  ∃ n, int (last_item (split ":" ident)) = Some n ∧ trailing_int int ident = Ok n.
Proof.
  unfold parses, trailing_int. intros [n Hn]. exists n. by rewrite Hn.
Qed.

Lemma keep_positive_ok {A} (ident : A → string) (l : list A) :
  (∀ x, x ∈ l → parses int (ident x)) →
  keep_positive int ident l = Ok (filter (λ x, is_real int (ident x)) l).
Proof.
  induction l as [|x l IH]; intros Hall; [done |].
  cbn [keep_positive].
  destruct (trailing_int_parses (ident x)) as (n & Hn & ->);
    [apply Hall, list_elem_of_here |].
  rewrite IH by (intros y Hy; by apply Hall, list_elem_of_further).
  cbn [bind]. f_equal. rewrite filter_cons.
  destruct (decide (is_real int (ident x))) as [Hr|Hr];
    unfold is_real in Hr; rewrite Hn in Hr.
  - by rewrite (proj2 (Z.ltb_lt 0 n) Hr).
  - by rewrite (proj2 (Z.ltb_ge 0 n)) by lia.
Qed.

Lemma strip_refs_ok (imgs : list ImageRecord) :
  (∀ i r, i ∈ imgs → r ∈ annotation_ref i → parses int (ref_id r)) →
  strip_refs int imgs = Ok (without_sentinel_refs int <$> imgs).
Proof.
  induction imgs as [|i imgs IH]; intros Hall; [done |].
  cbn [strip_refs].
  rewrite keep_positive_ok by (intros r Hr; by eapply Hall, Hr; apply list_elem_of_here).
  rewrite IH by (intros j r Hj; by apply Hall, list_elem_of_further).
  done.
Qed.

(** The loop over the annotations: the file list gains one entry for each
    sentinel, in document order. *)
Lemma scan_annotations_ok (anns : list Annotation) img_map filelist :
  (∀ a, a ∈ anns →
     parses int (ann_id a) ∧
     (is_sentinel int (ann_id a) → parses int (ann_namespace a))) →
  ∃ img_map',
    for_each anns (scan_annotation int) (img_map, filelist) =
      Ok (img_map',
          filelist ++ ((λ a, normalize (ann_value a)) <$>
                         filter (λ a, is_sentinel int (ann_id a)) anns)).
Proof.
  revert img_map filelist.
  induction anns as [|a anns IH]; intros img_map filelist Hall.
  - exists img_map. simpl. by rewrite app_nil_r.
  - cbn [for_each]. unfold scan_annotation at 1.
    destruct (Hall a) as [Hid Hns]; [apply list_elem_of_here |].
    destruct (trailing_int_parses _ Hid) as (n & Hn & ->). cbn [bind].
    rewrite filter_cons.
    destruct (decide (is_sentinel int (ann_id a))) as [Hneg|Hpos].
    + destruct (trailing_int_parses _ (Hns Hneg)) as (src_id & _ & ->).
      unfold is_sentinel in Hneg. rewrite Hn in Hneg.
      rewrite (proj2 (Z.ltb_lt n 0) Hneg).
      cbn [bind fst snd].
      destruct (IH (append (ann_value a) src_id img_map)
                  (filelist ++ [normalize (ann_value a)])) as [img_map' ->].
      { intros b Hb. by apply Hall, list_elem_of_further. }
      exists img_map'. by rewrite fmap_cons, <-app_assoc.
    + unfold is_sentinel in Hpos. rewrite Hn in Hpos.
      rewrite (proj2 (Z.ltb_ge n 0)) by lia. cbn [bind].
      apply IH. intros b Hb. by apply Hall, list_elem_of_further.
Qed.

(** What [_create_image_map] returns for a readable document. *)
Lemma create_image_map_ok (ome : OME) :
  readable int ome →
  ∃ img_map,
    _create_image_map int list_of_set ome =
      Ok ({| images := without_sentinel_refs int <$> images ome;
             structured_annotations :=
               filter (λ a, is_real int (ann_id a)) (structured_annotations ome) |},
          img_map,
          list_of_set (sentinel_files int ome)).
Proof.
  intros [Hanns Hrefs]. unfold _create_image_map.
  rewrite Forall_forall in Hanns.
  assert (∀ i r, i ∈ images ome → r ∈ annotation_ref i → parses int (ref_id r))
    as Hrefs'.
  { intros i r Hi Hr. rewrite Forall_forall in Hrefs.
    specialize (Hrefs i Hi). rewrite Forall_forall in Hrefs. by apply Hrefs. }
  clear Hrefs.
  destruct (scan_annotations_ok (structured_annotations ome) [] [] Hanns)
    as [img_map Hscan].
  unfold dict in *. rewrite Hscan. cbn [bind app]. rewrite keep_positive_ok by (intros a Ha; by apply Hanns).
  cbn [bind]. rewrite strip_refs_ok by done. cbn [bind].
  by eexists.
Qed.

Lemma real_not_sentinel ident : is_real int ident → ¬ is_sentinel int ident.
Proof. unfold is_real, is_sentinel. destruct (int _); [lia | done]. Qed.

End CreateImageMap.

(** C6.  For a readable document the call returns, and in the document it
    leaves behind the annotation collection is the old one restricted to
    the real annotations, each as it was and in the old order, every image
    keeps the references to real annotations only, and no identifier of a
    sentinel is left in either place. *)
Theorem sentinels_are_stripped (int : string → option Z)
    (list_of_set : list string → list string) (ome : OME) :
  readable int ome →
  ∃ ome' img_map filelist,
    _create_image_map int list_of_set ome = Ok (ome', img_map, filelist) ∧
    structured_annotations ome' =
      filter (λ a, is_real int (ann_id a)) (structured_annotations ome) ∧
    images ome' = without_sentinel_refs int <$> images ome ∧
    (∀ a, a ∈ structured_annotations ome' → ¬ is_sentinel int (ann_id a)) ∧
    (∀ i r, i ∈ images ome' → r ∈ annotation_ref i →
       ¬ is_sentinel int (ref_id r)) ∧
    (∀ a, a ∈ structured_annotations ome → is_real int (ann_id a) →
       a ∈ structured_annotations ome').
Proof.
  intros Hread. destruct (create_image_map_ok int list_of_set ome Hread) as [img_map Hok].
  eexists _, img_map, _. split; [exact Hok |]. cbn [structured_annotations images].
  split; [done |]. split; [done |]. split; [|split].
  - intros a [Hreal _]%list_elem_of_filter. by apply real_not_sentinel in Hreal.
  - intros i r (i0 & -> & _)%list_elem_of_fmap [Hreal _]%list_elem_of_filter.
    by apply real_not_sentinel in Hreal.
  - intros a Ha Hreal. by apply list_elem_of_filter.
Qed.

Lemma sentinels_are_stripped_witness :
  ∃ img_map filelist,
    _create_image_map py_int dedup example_document =
      Ok ({| images :=
               [{| image_id := "Image:501";
                   annotation_ref := [{| ref_id := "Annotation:7" |}] |}];
             structured_annotations :=
               [{| ann_id := "Annotation:7"; ann_namespace := "ns";
                   ann_value := "tag" |}] |},
          img_map, filelist).
Proof.
  destruct (sentinels_are_stripped py_int dedup example_document)
    as (ome' & img_map & filelist & Hok & Hanns & Himgs & _).
  - by apply (bool_decide_unpack _).
  - exists img_map, filelist. rewrite Hok. destruct ome'. simpl in *. by subst.
Defined.

(** * The import loop: [_import_files] *)

Section ImportPaths.

Lemma startswith_slash_head s :
  startswith s "/" = true → ∃ s', s = String "/" s'.
Proof.
  unfold startswith. destruct (strip_prefix "/" s) as [r|] eqn:Hp; [|done].
  intros _. apply strip_prefix_Some in Hp. by exists r.
Qed.

Lemma endswith_slash_snoc s : endswith_slash s = true → ∃ x, s = x +:+ "/".
Proof.
  induction s as [|c s IH]; simpl; [done |].
  destruct s as [|c' s].
  - intros ->%bool_decide_eq_true. by exists "".
  - intros [x Hx]%IH. exists (String c x). simpl. by rewrite Hx.
Qed.

(** What [os.path.join(folder, '.')] looks like. *)
Lemma join_dot folder :
  join folder ["."] = "." ∨ ∃ x, join folder ["."] = x +:+ "/.".
Proof.
  unfold join. cbn [foldl]. unfold join_step.
  replace (startswith "." "/") with false by done.
  destruct (bool_decide (folder = "")) eqn:Hempty; simpl.
  - apply bool_decide_eq_true in Hempty as ->. by left.
  - right. destruct (endswith_slash folder) eqn:Hend.
    + apply endswith_slash_snoc in Hend as [x ->]. exists x.
      by rewrite append_assoc.
    + by exists folder.
Qed.

Lemma endswith_slash_dot x : endswith_slash (x +:+ ".") = false.
Proof.
  induction x as [|c x IH]; [done |].
  simpl. destruct (x +:+ ".") eqn:Hx; [by destruct x | exact IH].
Qed.

(** The path [_import_files] imports a file of the list from. *)
Lemma join_dot_file folder filepath :
  join folder ["."; filepath] =
    if startswith filepath "/" then filepath
    else join folder ["."] +:+ "/" +:+ filepath.
Proof.
  unfold join. cbn [foldl]. set (base := join_step folder ".").
  unfold join_step at 1. destruct (startswith filepath "/"); [done |].
  assert (base ≠ "" ∧ endswith_slash base = false) as [Hne Hend].
  { destruct (join_dot folder) as [Hb|[x Hb]]; unfold join in Hb;
      cbn [foldl] in Hb; fold base in Hb; rewrite Hb.
    - done.
    - split; [by destruct x |].
      replace (x +:+ "/.") with ((x +:+ "/") +:+ ".") by by rewrite append_assoc.
      apply endswith_slash_dot. }
  rewrite Hend, bool_decide_eq_false_2 by done. done.
Qed.

(** Files with different marker-free names are imported from different
    paths. *)
Lemma join_dot_file_inj folder f1 f2 :
  ¬ occurs "/./" f1 → ¬ occurs "/./" f2 →
  join folder ["."; f1] = join folder ["."; f2] → f1 = f2.
Proof.
  assert (∀ f g, ¬ occurs "/./" f → startswith f "/" = true →
                 f ≠ join folder ["."] +:+ "/" +:+ g) as Hmixed.
  { intros f g Hfree [f' ->]%startswith_slash_head Heq.
    destruct (join_dot folder) as [Hb|[x Hb]]; rewrite Hb in Heq.
    - discriminate.
    - apply Hfree. exists x, g. rewrite Heq. by rewrite !append_assoc. }
  intros H1 H2. rewrite !join_dot_file.
  destruct (startswith f1 "/") eqn:Hs1, (startswith f2 "/") eqn:Hs2.
  - done.
  - intros Heq. by destruct (Hmixed f1 f2).
  - intros Heq. by destruct (Hmixed f2 f1).
  - intros Heq. apply (inj (String.append _)) in Heq.
    by apply (inj (String.append "/")) in Heq.
Qed.

Lemma import_of_inj folder ln_s f1 f2 :
  ¬ occurs "/./" f1 → ¬ occurs "/./" f2 →
  import_of folder ln_s f1 = import_of folder ln_s f2 → f1 = f2.
Proof.
  intros H1 H2. unfold import_of, import_argv. intros Heq.
  apply (join_dot_file_inj (str folder)); [done | done |].
  destruct ln_s; by injection Heq.
Qed.

End ImportPaths.

Section ImportLoop.

Context {Server : Type}.
Variable invoke : list string → Server → invoke_outcome * Server.
Variable projection : string → Server → list Z.

(** One round of the loop, seen from the rounds that follow. *)
Lemma import_loop_cons folder ln_s filepath rest dest_map srv :
  import_loop invoke projection folder ln_s (filepath :: rest) dest_map srv =
    let dest_path := join folder ["."; filepath] in
    let argv := import_argv dest_path ln_s in
    match invoke argv srv with
    | (Raised e, srv') => (Raise e, srv', [Invoke argv])
    | (Returned _, srv') =>
        let out :=
          import_loop invoke projection folder ln_s rest
            (set dest_path (_get_image_ids projection dest_path srv') dest_map)
            srv' in
        (out.1.1, out.1.2, Invoke argv :: out.2)
    end.
Proof.
  cbn [import_loop]. cbv zeta.
  destruct (invoke _ srv) as [[rv|e] srv']; [|done].
  by destruct (import_loop _ _ _ _ _ _ _) as [[r s] t].
Qed.

(** The loop over a list cut in two. *)
Lemma import_loop_app folder ln_s before after dest_map srv :
  import_loop invoke projection folder ln_s (before ++ after) dest_map srv =
    match import_loop invoke projection folder ln_s before dest_map srv with
    | (Ok dest_map', srv', tr) =>
        let out := import_loop invoke projection folder ln_s after dest_map' srv' in
        (out.1.1, out.1.2, tr ++ out.2)
    | (Raise e, srv', tr) => (Raise e, srv', tr)
    end.
Proof.
  revert dest_map srv. induction before as [|f before IH]; intros dest_map srv.
  - cbn [app import_loop]. by destruct (import_loop _ _ _ _ _ _ _) as [[r s] t].
  - rewrite <-app_comm_cons, !import_loop_cons. cbv zeta.
    destruct (invoke _ srv) as [[rv|e] srv']; [|done].
    rewrite IH.
    by destruct (import_loop _ _ _ _ before _ _) as [[[m|e] s] t].
Qed.

(** The invocations made are those of the files of the list, in order,
    up to the first one that raises; all of them when the loop ends
    without an exception. *)
Lemma import_loop_trace folder ln_s filelist dest_map srv :
  let out := import_loop invoke projection (str folder) ln_s filelist dest_map srv in
  out.2 `prefix_of` (import_of folder ln_s <$> filelist) ∧
  (∀ m, out.1.1 = Ok m → out.2 = import_of folder ln_s <$> filelist).
Proof.
  revert dest_map srv. induction filelist as [|f filelist IH]; intros dest_map srv.
  - simpl. split; [done | done].
  - cbv zeta. rewrite import_loop_cons. cbv zeta.
    destruct (invoke _ srv) as [[rv|e] srv'].
    + destruct (IH (set (join (str folder) ["."; f])
                      (_get_image_ids projection (join (str folder) ["."; f]) srv')
                      dest_map) srv') as [Hpre Hall].
      cbn [fst snd fmap list_fmap]. split.
      * by apply prefix_cons.
      * intros m Hm. unfold import_of at 1. f_equal. by apply (Hall m).
    + cbn [fst snd fmap list_fmap]. split; [|done].
      apply prefix_cons, prefix_nil.
Qed.

End ImportLoop.

Lemma dedup_spec : set_list_spec dedup.
Proof.
  intros l. split; [apply NoDup_remove_dups | apply elem_of_remove_dups].
Qed.

(** C7.  For a readable document the file list returned has no duplicates
    and holds exactly the files named by the sentinels, a file being named
    by what follows the marker in a sentinel's value.  The import loop run
    on that list builds one command line for each file, all different, and
    invokes them in list order, each at most once and, when the loop ends
    without an exception, each exactly once: the number of imports is the
    number of distinct files, whatever the number of sentinels. *)
Theorem each_distinct_file_is_imported_once (int : string → option Z)
    (list_of_set : list string → list string) (ome : OME) :
  set_list_spec list_of_set → readable int ome →
  ∃ ome' img_map filelist,
    _create_image_map int list_of_set ome = Ok (ome', img_map, filelist) ∧
    NoDup filelist ∧
    (∀ p, p ∈ filelist ↔
          ∃ a, a ∈ structured_annotations ome ∧ is_sentinel int (ann_id a) ∧
               normalize (ann_value a) = p) ∧
    ∀ (Server : Type) (invoke : list string → Server → invoke_outcome * Server)
      (projection : string → Server → list Z)
      (folder : path) (ln_s : bool) (srv : Server),
      NoDup (import_of folder ln_s <$> filelist) ∧
      (_import_files invoke projection folder filelist ln_s srv).2
        `prefix_of` (import_of folder ln_s <$> filelist) ∧
      (∀ dest_map,
         (_import_files invoke projection folder filelist ln_s srv).1.1
           = Ok dest_map →
         (_import_files invoke projection folder filelist ln_s srv).2
           = import_of folder ln_s <$> filelist).
Proof.
  intros Hset Hread.
  destruct (create_image_map_ok int list_of_set ome Hread) as [img_map Hok].
  destruct (Hset (sentinel_files int ome)) as [Hnd Hmem].
  eexists _, img_map, _. split; [exact Hok |]. split; [done |].
  assert (∀ p, p ∈ list_of_set (sentinel_files int ome) ↔
               ∃ a, a ∈ structured_annotations ome ∧ is_sentinel int (ann_id a) ∧
                    normalize (ann_value a) = p) as Hfiles.
  { intros p. rewrite Hmem. unfold sentinel_files. rewrite list_elem_of_fmap.
    split.
    - intros (a & -> & [Hs Ha]%list_elem_of_filter). by exists a.
    - intros (a & Ha & Hs & <-). exists a. split; [done |].
      by apply list_elem_of_filter. }
  split; [exact Hfiles |].
  intros Server invoke projection folder ln_s srv. split.
  - apply NoDup_fmap_2_strong; [|done].
    intros f1 f2 (a1 & _ & _ & <-)%Hfiles (a2 & _ & _ & <-)%Hfiles.
    apply import_of_inj; apply normalize_marker_free.
  - apply (import_loop_trace invoke projection).
Qed.

Lemma each_distinct_file_is_imported_once_witness :
  ∃ ome' img_map,
    _create_image_map py_int dedup example_document
      = Ok (ome', img_map, ["a/img.tif"]) ∧
    (_import_files (example_invoke [] []) (example_projection (λ _, [9001; 9002]))
       (parse "/out") ["a/img.tif"] false []).2
      = [Invoke ["import"; "/out/./a/img.tif"]].
Proof.
  destruct (each_distinct_file_is_imported_once py_int dedup example_document
              dedup_spec)
    as (ome' & img_map & filelist & Hok & _ & _ & Himport).
  - by apply (bool_decide_unpack _).
  - exists ome', img_map.
    assert (filelist = ["a/img.tif"]) as ->.
    { vm_compute in Hok. by injection Hok. }
    split; [exact Hok |].
    destruct (Himport _ (example_invoke [] [])
                (example_projection (λ _, [9001; 9002])) (parse "/out") false [])
      as (_ & _ & Hall).
    by apply (Hall [("/out/./a/img.tif", [9001; 9002])]).
Defined.

(** C8, as the code has it.  The list is cut at a file whose import lets
    an exception through, the files before it having been imported without
    one: the call ends with that exception, its invocations are those of
    the files before and that of the file, made once, and no file after it
    is imported.  The return code of an import that comes back is not
    read: whatever it is, the loop records the image ids found for the
    path and goes on with the files after it. *)
Theorem raising_import_aborts_the_loop {Server : Type}
    (invoke : list string → Server → invoke_outcome * Server)
    (projection : string → Server → list Z)
    (folder : path) (ln_s : bool)
    (before : list string) (filepath : string) (after : list string)
    (srv srv1 srv2 : Server) (dest_map : dict (list Z)) (tr : list effect) :
  _import_files invoke projection folder before ln_s srv = (Ok dest_map, srv1, tr) →
  (∀ e,
     invoke (import_argv (join (str folder) ["."; filepath]) ln_s) srv1
       = (Raised e, srv2) →
     _import_files invoke projection folder (before ++ filepath :: after) ln_s srv
       = (Raise e, srv2, tr ++ [import_of folder ln_s filepath])) ∧
  (∀ rv,
     invoke (import_argv (join (str folder) ["."; filepath]) ln_s) srv1
       = (Returned rv, srv2) →
     _import_files invoke projection folder (before ++ filepath :: after) ln_s srv
       = let dest_path := join (str folder) ["."; filepath] in
         let out :=
           import_loop invoke projection (str folder) ln_s after
             (set dest_path (_get_image_ids projection dest_path srv2) dest_map)
             srv2 in
         (out.1.1, out.1.2, tr ++ import_of folder ln_s filepath :: out.2)).
Proof.
  unfold _import_files. intros Hbefore. split.
  - intros e Hraise. rewrite import_loop_app, Hbefore. cbv zeta.
    rewrite import_loop_cons. cbv zeta. by rewrite Hraise.
  - intros rv Hret. rewrite import_loop_app, Hbefore. cbv zeta.
    rewrite import_loop_cons. cbv zeta. by rewrite Hret.
Qed.

Lemma raising_import_aborts_the_loop_witness :
  _import_files (example_invoke ["/out/./b.tif"] []) (example_projection (λ _, [9001]))
    (parse "/out") ["a.tif"; "b.tif"; "c.tif"] true []
  = (Raise (External "import"),
     [["import"; "/out/./a.tif"; "--transfer=ln_s"];
      ["import"; "/out/./b.tif"; "--transfer=ln_s"]],
     [Invoke ["import"; "/out/./a.tif"; "--transfer=ln_s"];
      Invoke ["import"; "/out/./b.tif"; "--transfer=ln_s"]]).
Proof.
  apply (proj1 (raising_import_aborts_the_loop
                  (example_invoke ["/out/./b.tif"] [])
                  (example_projection (λ _, [9001]))
                  (parse "/out") true ["a.tif"] "b.tif" ["c.tif"]
                  [] [["import"; "/out/./a.tif"; "--transfer=ln_s"]]
                  [["import"; "/out/./a.tif"; "--transfer=ln_s"];
                   ["import"; "/out/./b.tif"; "--transfer=ln_s"]]
                  [("/out/./a.tif", [9001])]
                  [Invoke ["import"; "/out/./a.tif"; "--transfer=ln_s"]]
                  eq_refl) (External "import")).
  reflexivity.
Defined.

(** C8 as stated fails: the import of [a.tif] comes back with return code
    1, no exception, and no image is found for it; the loop goes on to
    import [b.tif] and the call returns a destination map. *)
Lemma failed_import_does_not_stop_the_loop :
  (example_invoke [] ["/out/./a.tif"] ["import"; "/out/./a.tif"] []).1 = Returned 1 ∧
  _import_files (example_invoke [] ["/out/./a.tif"])
    (example_projection (λ p, if decide (p = "out/./b.tif") then [9002] else []))
    (parse "/out") ["a.tif"; "b.tif"] false []
  = (Ok [("/out/./a.tif", []); ("/out/./b.tif", [9002])],
     [["import"; "/out/./a.tif"]; ["import"; "/out/./b.tif"]],
     [Invoke ["import"; "/out/./a.tif"]; Invoke ["import"; "/out/./b.tif"]]).
Proof. by vm_compute. Qed.

(** * [pack]: the kinds of root object *)

(** C9, as the code has it.  For a root object that is not an image, a
    dataset or a project, [__pack] prints its message and returns, with
    the value a complete run returns and without raising: the message is
    its only effect, so no staging directory is made, no document is
    written, nothing is downloaded or archived, and the server is left as
    it was. *)
Theorem unsupported_root_is_rejected_before_io {Server : Type}
    (invoke : list string → Server → invoke_outcome * Server)
    (repositories : Server → list Repository)
    (populate_xml : string → Z → string → string → Server → dict string)
    (object : model_object) (filepath : string) (srv : Server) :
  ¬ supported object →
  __pack invoke repositories populate_xml object filepath srv =
    (Ok (), srv, [Print "Object is not a project, dataset or image"]) ∧
  Forall (λ e, ¬ is_io e)
    (__pack invoke repositories populate_xml object filepath srv).2.
Proof.
  intros Hunsupported. destruct object; simpl in Hunsupported; try tauto.
  split; [done |]. cbn. repeat constructor. tauto.
Qed.

Lemma unsupported_root_is_rejected_before_io_witness :
  __pack (example_invoke [] []) (λ _, []) (λ _ _ _ _ _, [])
    (OtherObject "Screen" 5) "out/pack.zip" []
  = (Ok (), [], [Print "Object is not a project, dataset or image"]).
Proof.
  apply (unsupported_root_is_rejected_before_io
           (example_invoke [] []) (λ _, []) (λ _ _ _ _ _, [])
           (OtherObject "Screen" 5) "out/pack.zip" []).
  simpl. tauto.
Defined.

(** C9 as stated fails in its first half: packing a screen raises nothing;
    the call returns the value that the pack of an image returns. *)
Lemma unsupported_root_returns_normally :
  (__pack (example_invoke [] []) (λ _, []) (λ _ _ _ _ _, [])
     (OtherObject "Screen" 5) "out/pack.zip" []).1.1 = Ok () ∧
  (¬ ∃ e, (__pack (example_invoke [] []) (λ _, []) (λ _ _ _ _ _, [])
             (OtherObject "Screen" 5) "out/pack.zip" []).1.1 = Raise e) ∧
  (__pack (example_invoke [] [])
     (λ _, [{| desc_path := "/OMERO/"; desc_name := "ManagedRepository";
               is_mrepo := true |}])
     (λ _ _ _ _ _, [("Image:1", "/OMERO/ManagedRepository/u/2020/img.tif")])
     (Image 1) "out/pack.zip" []).1.1 = Ok ().
Proof.
  split; [reflexivity |]. split; [|reflexivity].
  intros [e He]. vm_compute in He. done.
Qed.

(** * [unpack]: where the archive is extracted *)

(** The archive is extracted into [unpack_folder]. *)
Lemma unpack_extracts_into_unpack_folder (int : string → option Z)
    (list_of_set : list string → list string) {Server : Type}
    (invoke : list string → Server → invoke_outcome * Server)
    (projection : string → Server → list Z) (from_xml : string → OME)
    (filepath : string) (output : option string) (ln_s_import : bool)
    (srv : Server) :
  ∃ rest,
    (__unpack int list_of_set invoke projection from_xml
       filepath output ln_s_import srv).2 =
      Print ("Unzipping " +:+ filepath +:+ "...") ::
      UnpackArchive filepath (str (unpack_folder filepath output)) :: rest.
Proof.
  unfold __unpack. cbv zeta.
  destruct (_create_image_map _ _ _) as [[[ome' src_img_map] filelist]|e];
    [|by eexists].
  destruct (_import_files _ _ _ _ _ _) as [[[dest_img_map|e] srv'] tr];
    [|by eexists].
  destruct (_make_image_map _ _) as [img_map|e]; by eexists.
Qed.

(** C10 on the code.  Without [--output], the archive [dir/pack.zip] is
    extracted into [dir/dir/pack], not into its sibling [dir/pack]: the
    name joined to the parent folder is the whole path without its
    extension, directory included.  The sibling is reached when the path
    has no directory part or is absolute. *)
Theorem default_folder_repeats_relative_directory :
  (splitext "dir/pack.zip").1 = "dir/pack" ∧
  str (parent (parse "dir/pack.zip")) = "dir" ∧
  str (unpack_folder "dir/pack.zip" None) = "dir/dir/pack" ∧
  str (unpack_folder "dir/pack.zip" None) ≠ "dir/pack" ∧
  (∀ (int : string → option Z) (list_of_set : list string → list string)
     (Server : Type) (invoke : list string → Server → invoke_outcome * Server)
     (projection : string → Server → list Z) (from_xml : string → OME)
     (ln_s_import : bool) (srv : Server),
     ∃ rest,
       (__unpack int list_of_set invoke projection from_xml
          "dir/pack.zip" None ln_s_import srv).2 =
         Print "Unzipping dir/pack.zip..." ::
         UnpackArchive "dir/pack.zip" "dir/dir/pack" :: rest) ∧
  str (unpack_folder "pack.zip" None) = "pack" ∧
  str (unpack_folder "/abs/dir/pack.zip" None) = "/abs/dir/pack" ∧
  str (unpack_folder "dir/pack.zip" (Some "elsewhere")) = "elsewhere".
Proof.
  do 4 (split; [by vm_compute |]). split; [|by vm_compute].
  intros int list_of_set Server invoke projection from_xml ln_s_import srv.
  apply (unpack_extracts_into_unpack_folder int list_of_set invoke projection
           from_xml "dir/pack.zip" None ln_s_import srv).
Qed.

(** * Further properties of the reconciliation *)

Section ReconcileFurther.

Implicit Types (source_map dest_map : dict (list Z)) (j : string).

Lemma for_each_raise_only {A X} (xs : list X) (body : A → X → result A) acc e e' :
  (∀ a y e0, body a y = Raise e0 → e0 = e) →
  for_each xs body acc = Raise e' → e' = e.
Proof.
  intros Honly. revert acc. induction xs as [|x xs IH]; intros acc; simpl; [done |].
  destruct (body acc x) as [acc'|e0] eqn:Hb; simpl; [apply IH |].
  intros [= <-]. by eapply Honly.
Qed.

Lemma ids_under_in_dom j m :
  ids_under j m ≠ [] → is_Some (get j (merge_by_suffix m)).
Proof.
  intros Hne. apply merge_in_dom.
  destruct (ids_under j m) as [|x l] eqn:Hids; [done |].
  assert (x ∈ ids_under j m) as Hx by (rewrite Hids; apply list_elem_of_here).
  unfold ids_under in Hx. apply list_elem_of_bind in Hx as (kv & Hx & Hkv).
  exists kv. split; [done |].
  destruct (decide (normalize kv.1 = j)); [done | by apply elem_of_nil in Hx].
Qed.

Lemma merge_get_Some j m v :
  get j (merge_by_suffix m) = Some v → v = ids_under j m.
Proof. intros Hg. by apply merge_elem, get_Some_elem. Qed.

Lemma elem_of_set {V} k (v : V) (d : dict V) k' v' :
  (k', v') ∈ set k v d → (k', v') = (k, v) ∨ (k', v') ∈ d.
Proof.
  induction d as [|[k0 v0] d IH]; simpl.
  - intros ->%list_elem_of_singleton. by left.
  - destruct (decide (k0 = k)) as [->|Hne].
    + intros [->|Hin]%elem_of_cons; [by left |].
      right. by apply list_elem_of_further.
    + intros [->|Hin]%elem_of_cons; [right; apply list_elem_of_here |].
      destruct (IH Hin) as [->|Hd]; [by left |].
      right. by apply list_elem_of_further.
Qed.

Lemma elem_of_insert_pairs imgmap pairs key d :
  (key, d) ∈ insert_pairs imgmap pairs →
  (key, d) ∈ imgmap ∨ ∃ s, (s, d) ∈ pairs ∧ key = map_key s.
Proof.
  induction pairs as [|[s' d'] pairs IH] using rev_ind; [by left |].
  rewrite insert_pairs_snoc. simpl.
  intros [[= -> ->]|Hin]%elem_of_set.
  - right. exists s'. split; [|done]. apply elem_of_app. right.
    apply list_elem_of_here.
  - destruct (IH Hin) as [Hm|(s & Hs & ->)]; [by left |].
    right. exists s. split; [|done]. apply elem_of_app. by left.
Qed.

Lemma get_insert_pairs_last imgmap pairs s :
  get (map_key s) (insert_pairs imgmap pairs) =
    match last (filter (λ sd, sd.1 = s) pairs) with
    | Some sd => Some sd.2
    | None => get (map_key s) imgmap
    end.
Proof.
  induction pairs as [|[s' d'] pairs IH] using rev_ind; [done |].
  rewrite insert_pairs_snoc, filter_app, filter_cons, filter_nil. simpl.
  destruct (decide (s' = s)) as [->|Hne].
  - by rewrite last_snoc, get_set_eq.
  - rewrite app_nil_r, get_set_ne; [done |]. by intros ?%map_key_inj.
Qed.

Lemma elem_of_pairing source_map dest_map s d :
  (s, d) ∈ pairing (merge_by_suffix source_map) (merge_by_suffix dest_map) ↔
  ∃ j i, ids_under j source_map !! i = Some s ∧ ids_under j dest_map !! i = Some d.
Proof.
  rewrite pairing_ids_under, list_elem_of_bind. split.
  - intros ([j v] & Hz & _). simpl in Hz.
    apply list_elem_of_lookup in Hz as [i Hi].
    apply lookup_zip_Some in Hi. by exists j, i.
  - intros (j & i & Hs & Hd).
    assert (is_Some (get j (merge_by_suffix source_map))) as [v Hv].
    { apply ids_under_in_dom. intros Hnil. by rewrite Hnil in Hs. }
    exists (j, v). split; [|by apply get_Some_elem]. simpl.
    apply list_elem_of_lookup. exists i. by apply lookup_zip_Some.
Qed.

(** When the call returns, and what it raises. *)
Lemma make_image_map_returns_iff source_map dest_map :
  ((∃ imgmap, _make_image_map source_map dest_map = Ok imgmap) ↔
   ∀ j, (length (ids_under j source_map) ≤ length (ids_under j dest_map))%nat) ∧
  (∀ e, _make_image_map source_map dest_map = Raise e → e = IndexError).
Proof.
  split; [split |].
  - intros [imgmap Hok] j.
    destruct (decide (length (ids_under j source_map)
                        ≤ length (ids_under j dest_map))%nat) as [|Hlt]; [done |].
    assert (is_Some (get j (merge_by_suffix source_map))) as [v Hv].
    { apply ids_under_in_dom. intros Hnil. rewrite Hnil in Hlt. simpl in Hlt. lia. }
    rewrite (make_image_map_raises source_map dest_map j v) in Hok; [done | |].
    + by apply get_Some_elem.
    + rewrite merge_getitem, (merge_get_Some _ _ _ Hv). lia.
  - intros Hall. eexists. apply make_image_map_ok.
    intros k v Hin. rewrite merge_getitem, (merge_elem _ _ _ Hin). apply Hall.
  - intros e. unfold _make_image_map. apply for_each_raise_only.
    intros a y e0. apply pair_lists_raise_only.
Qed.

(** The map a returning call returns. *)
Lemma make_image_map_Ok_inv source_map dest_map imgmap :
  _make_image_map source_map dest_map = Ok imgmap →
  imgmap = insert_pairs []
             (pairing (merge_by_suffix source_map) (merge_by_suffix dest_map)).
Proof.
  intros Hok.
  assert (∃ m, _make_image_map source_map dest_map = Ok m) as Hret by by eexists.
  pose proof (proj1 (proj1 (make_image_map_returns_iff source_map dest_map)) Hret)
    as Hall.
  rewrite make_image_map_ok in Hok; [by injection Hok |].
  intros k v Hk. rewrite merge_getitem, (merge_elem _ _ _ Hk). apply Hall.
Qed.

End ReconcileFurther.

(** X1.  [_make_image_map] returns a map exactly when, under every join
    key, the destination lists at least as many identifiers as the source;
    otherwise it raises, and [IndexError] is the only exception it ever
    raises. *)
Theorem reconcile_returns_iff_no_shortage (source_map dest_map : dict (list Z)) :
  ((∃ imgmap, _make_image_map source_map dest_map = Ok imgmap) ↔
   ∀ j, (length (ids_under j source_map) ≤ length (ids_under j dest_map))%nat) ∧
  (∀ e, _make_image_map source_map dest_map = Raise e → e = IndexError).
Proof. apply make_image_map_returns_iff. Qed.

Lemma reconcile_returns_iff_no_shortage_witness :
  Nat.le
    (length (ids_under "f.tif" [("/a/./f.tif", [7]); ("/b/./g.tif", [3])]))
    (length (ids_under "f.tif" [("/x/./g.tif", [10; 11]); ("/x/./f.tif", [12])])).
Proof.
  apply (proj1 (proj1 (reconcile_returns_iff_no_shortage
                         [("/a/./f.tif", [7]); ("/b/./g.tif", [3])]
                         [("/x/./g.tif", [10; 11]); ("/x/./f.tif", [12])]))).
  eexists. reflexivity.
Defined.

(** X2.  Every entry of the map [_make_image_map] returns is
    ["Image:<s>"] with the destination identifier found at the position of
    [s], under the join key of [s]: identifiers are never paired across
    join keys or across positions. *)
Theorem reconcile_pairs_within_a_join_key
    (source_map dest_map : dict (list Z)) (imgmap : dict Z) (key : string) (d : Z) :
  _make_image_map source_map dest_map = Ok imgmap →
  (key, d) ∈ imgmap →
  ∃ j i s, key = map_key s ∧
           ids_under j source_map !! i = Some s ∧
           ids_under j dest_map !! i = Some d.
Proof.
  intros ->%make_image_map_Ok_inv Hin.
  apply elem_of_insert_pairs in Hin as [Hnil|(s & Hs & ->)];
    [by apply elem_of_nil in Hnil |].
  apply elem_of_pairing in Hs as (j & i & Hsrc & Hdst). by exists j, i, s.
Qed.

Lemma reconcile_pairs_within_a_join_key_witness :
  ∃ j i s, "Image:3" = map_key s ∧
           ids_under j [("/a/./f.tif", [7]); ("/b/./f.tif", [3])] !! i = Some s ∧
           ids_under j [("/x/./f.tif", [10; 11])] !! i = Some 11.
Proof.
  apply (reconcile_pairs_within_a_join_key
           [("/a/./f.tif", [7]); ("/b/./f.tif", [3])] [("/x/./f.tif", [10; 11])]
           [("Image:7", 10); ("Image:3", 11)] "Image:3" 11).
  - reflexivity.
  - apply list_elem_of_further, list_elem_of_here.
Defined.

(** X3.  What a key of the returned map holds: ["Image:<s>"] holds the
    destination identifier of the last position at which [s] is paired, in
    the order the join keys and positions are gone through; it is absent
    when [s] is paired nowhere.  A source identifier listed twice keeps the
    later destination only. *)
Theorem reconcile_last_assignment_wins
    (source_map dest_map : dict (list Z)) (imgmap : dict Z) (s : Z) :
  _make_image_map source_map dest_map = Ok imgmap →
  get (map_key s) imgmap =
    snd <$> last (filter (λ sd, sd.1 = s)
                    (pairing (merge_by_suffix source_map)
                             (merge_by_suffix dest_map))).
Proof.
  intros ->%make_image_map_Ok_inv. rewrite get_insert_pairs_last.
  by destruct (last _).
Qed.

Lemma reconcile_last_assignment_wins_witness :
  get (map_key 5) [("Image:5", 11)] = Some 11 ∧
  _make_image_map [("/a/./f.tif", [5]); ("/b/./f.tif", [5])]
                  [("/x/./f.tif", [10; 11])] = Ok [("Image:5", 11)].
Proof.
  split; [|reflexivity].
  rewrite (reconcile_last_assignment_wins
             [("/a/./f.tif", [5]); ("/b/./f.tif", [5])]
             [("/x/./f.tif", [10; 11])] [("Image:5", 11)] 5 eq_refl).
  reflexivity.
Defined.

(** X4.  The destination map is read under the join keys of the source
    only: two destination maps that list the same identifiers under every
    join key of the source give the same outcome, so files imported
    without a source counterpart are passed over in silence. *)
Theorem reconcile_ignores_unmatched_destination_keys
    (source_map dest_map dest_map' : dict (list Z)) :
  (∀ j, is_Some (get j (merge_by_suffix source_map)) →
        ids_under j dest_map = ids_under j dest_map') →
  _make_image_map source_map dest_map = _make_image_map source_map dest_map'.
Proof.
  intros Hagree. unfold _make_image_map. apply for_each_ext.
  intros imgmap [k v] Hin. simpl. rewrite !merge_getitem, Hagree; [done |].
  exists v. apply get_NoDup_elem; [apply merge_keys_NoDup | done].
Qed.

Lemma reconcile_ignores_unmatched_destination_keys_witness :
  _make_image_map [("/a/./f.tif", [7])]
                  [("/x/./f.tif", [10]); ("/x/./other.tif", [11; 12])]
  = _make_image_map [("/a/./f.tif", [7])] [("/x/./f.tif", [10])].
Proof.
  apply reconcile_ignores_unmatched_destination_keys.
  intros j Hj. apply merge_in_dom in Hj as (kv & Hkv%list_elem_of_singleton & <-).
  subst kv. reflexivity.
Defined.

(** * Further properties of the extraction *)

Section ExtractionFurther.

Variable int : string → option Z.

Lemma trailing_int_Ok_parses ident n :
  trailing_int int ident = Ok n → int (last_item (split ":" ident)) = Some n.
Proof. unfold trailing_int. by destruct (int _); intros [= ->]. Qed.

Lemma trailing_int_raise_only ident e :
  trailing_int int ident = Raise e → e = ValueError.
Proof. unfold trailing_int. by destruct (int _); intros [= <-]. Qed.

Lemma keep_positive_inv {A} (ident : A → string) (l : list A) :
  (∀ r, keep_positive int ident l = Ok r → Forall (λ x, parses int (ident x)) l) ∧
  (∀ e, keep_positive int ident l = Raise e → e = ValueError).
Proof.
  induction l as [|x l [IHok IHraise]]; [split; [by constructor | done] |].
  cbn [keep_positive].
  destruct (trailing_int int (ident x)) as [n|e0] eqn:Hn; cbn [bind].
  - destruct (keep_positive int ident l) as [rest|e1]; cbn [bind].
    + split; [|done]. intros r _. constructor; [|by eapply IHok].
      exists n. by apply trailing_int_Ok_parses.
    + split; [done |]. intros e [= <-]. by apply IHraise.
  - split; [done |]. intros e [= <-]. by eapply trailing_int_raise_only.
Qed.

Lemma strip_refs_inv (imgs : list ImageRecord) :
  (∀ r, strip_refs int imgs = Ok r →
        Forall (λ i, Forall (λ x, parses int (ref_id x)) (annotation_ref i)) imgs) ∧
  (∀ e, strip_refs int imgs = Raise e → e = ValueError).
Proof.
  induction imgs as [|i imgs [IHok IHraise]]; [split; [by constructor | done] |].
  cbn [strip_refs].
  destruct (keep_positive_inv ref_id (annotation_ref i)) as [Hok Hraise].
  destruct (keep_positive int ref_id (annotation_ref i)) as [refs|e0]; cbn [bind].
  - destruct (strip_refs int imgs) as [rest|e1]; cbn [bind].
    + split; [|done]. intros r _. constructor; [by eapply Hok | by eapply IHok].
    + split; [done |]. intros e [= <-]. by apply IHraise.
  - split; [done |]. intros e [= <-]. by apply Hraise.
Qed.

Lemma scan_annotation_raise_only acc a e :
  scan_annotation int acc a = Raise e → e = ValueError.
Proof.
  unfold scan_annotation.
  destruct (trailing_int int (ann_id a)) as [n|e0] eqn:Hn; cbn [bind].
  - destruct (n <? 0); [|done].
    destruct (trailing_int int (ann_namespace a)) as [m|e1] eqn:Hm; cbn [bind];
      [done |].
    intros [= <-]. by eapply trailing_int_raise_only.
  - intros [= <-]. by eapply trailing_int_raise_only.
Qed.

Lemma scan_annotations_inv (anns : list Annotation) acc r :
  for_each anns (scan_annotation int) acc = Ok r →
  Forall (λ a, parses int (ann_id a) ∧
               (is_sentinel int (ann_id a) → parses int (ann_namespace a))) anns.
Proof.
  revert acc. induction anns as [|a anns IH]; intros acc; [by constructor |].
  cbn [for_each]. unfold scan_annotation at 1.
  destruct (trailing_int int (ann_id a)) as [n|e0] eqn:Hn; cbn [bind]; [|done].
  apply trailing_int_Ok_parses in Hn.
  destruct (n <? 0) eqn:Hneg.
  - destruct (trailing_int int (ann_namespace a)) as [m|e1] eqn:Hm; cbn [bind];
      [|done].
    intros Hrest. constructor; [|by eapply IH].
    split; [by exists n |]. intros _. exists m. by apply trailing_int_Ok_parses.
  - cbn [bind]. intros Hrest. constructor; [|by eapply IH].
    split; [by exists n |]. unfold is_sentinel. rewrite Hn.
    apply Z.ltb_ge in Hneg. lia.
Qed.

(** The loop over the annotations, as far as the map goes: each sentinel
    appends its source image under its value. *)
Lemma scan_annotations_map (anns : list Annotation) img_map filelist :
  Forall (λ a, parses int (ann_id a) ∧
               (is_sentinel int (ann_id a) → parses int (ann_namespace a))) anns →
  ∃ img_map' filelist',
    for_each anns (scan_annotation int) (img_map, filelist) = Ok (img_map', filelist') ∧
    ∀ v, getitem_default v img_map' =
           getitem_default v img_map ++ sentinel_ids int v anns ∧
         (is_Some (get v img_map') ↔
          is_Some (get v img_map) ∨
          ∃ a, a ∈ anns ∧ is_sentinel int (ann_id a) ∧ ann_value a = v).
Proof.
  revert img_map filelist.
  induction anns as [|a anns IH]; intros img_map filelist Hall.
  - exists img_map, filelist. split; [done |]. intros v. split.
    + by rewrite app_nil_r.
    + split; [by left | intros [?|(a & Ha & _)]; [done | by apply elem_of_nil in Ha]].
  - apply Forall_cons in Hall as [[Hid Hns] Hall].
    cbn [for_each]. unfold scan_annotation at 1.
    destruct (trailing_int_parses int _ Hid) as (n & Hn & ->). cbn [bind].
    destruct (decide (is_sentinel int (ann_id a))) as [Hneg|Hpos].
    + destruct (trailing_int_parses int _ (Hns Hneg)) as (src & Hsrc & ->).
      pose proof Hneg as Hneg'. unfold is_sentinel in Hneg'. rewrite Hn in Hneg'.
      rewrite (proj2 (Z.ltb_lt n 0) Hneg'). cbn [bind fst snd].
      destruct (IH (append (ann_value a) src img_map)
                  (filelist ++ [normalize (ann_value a)]) Hall)
        as (img_map' & filelist' & -> & Hmap).
      exists img_map', filelist'. split; [done |]. intros v.
      destruct (Hmap v) as [Hget Hdom]. unfold append in Hget, Hdom.
      rewrite getitem_extend in Hget. rewrite get_extend_is_Some in Hdom.
      unfold sentinel_ids. rewrite filter_cons.
      destruct (decide (ann_value a = v)) as [Hv|Hv].
      * rewrite decide_True by done. split.
        -- assert (source_id int a = src) as Hid'
             by (unfold source_id; by rewrite Hsrc).
           by rewrite Hget, fmap_cons, Hid', <-app_assoc.
        -- rewrite Hdom. split.
           ++ intros [[_|?]|(b & Hb & Hs & Hbv)]; [| by left |].
              ** right. exists a. split; [apply list_elem_of_here | done].
              ** right. exists b. split; [by apply list_elem_of_further | done].
           ++ intros [?|(b & [->|Hb]%elem_of_cons & Hs & Hbv)].
              ** left. by right.
              ** left. by left.
              ** right. by exists b.
      * rewrite decide_False by tauto. split; [exact Hget |].
        rewrite Hdom. split.
        -- intros [[?|?]|(b & Hb & Hs & Hbv)]; [done | by left |].
           right. exists b. split; [by apply list_elem_of_further | done].
        -- intros [?|(b & [->|Hb]%elem_of_cons & Hs & Hbv)]; [| done |].
           ++ left. by right.
           ++ right. by exists b.
    + pose proof Hpos as Hpos'. unfold is_sentinel in Hpos'. rewrite Hn in Hpos'.
      rewrite (proj2 (Z.ltb_ge n 0)) by lia. cbn [bind].
      destruct (IH img_map filelist Hall) as (img_map' & filelist' & -> & Hmap).
      exists img_map', filelist'. split; [done |]. intros v.
      destruct (Hmap v) as [Hget Hdom].
      unfold sentinel_ids. rewrite filter_cons, decide_False by tauto. split; [exact Hget |].
      rewrite Hdom. split.
      * intros [?|(b & Hb & Hs & Hbv)]; [by left |].
        right. exists b. split; [by apply list_elem_of_further | done].
      * intros [?|(b & [->|Hb]%elem_of_cons & Hs & Hbv)]; [by left | done |].
        right. by exists b.
Qed.

Lemma get_fmap_values {V W} (f : V → W) (d : dict V) k :
  get k ((λ kv : string * V, (kv.1, f kv.2)) <$> d) = f <$> get k d.
Proof.
  induction d as [|[k' v'] d IH]; simpl; [done |].
  destruct (decide (k' = k)); [done | apply IH].
Qed.

End ExtractionFurther.

(** When the extraction returns, and what it raises. *)
Lemma create_image_map_returns_iff (int : string → option Z)
    (list_of_set : list string → list string) (ome : OME) :
  ((∃ r, _create_image_map int list_of_set ome = Ok r) ↔ readable int ome) ∧
  (∀ e, _create_image_map int list_of_set ome = Raise e → e = ValueError).
Proof.
  split; [split |].
  - intros [r Hok]. unfold _create_image_map in Hok.
    destruct (for_each (structured_annotations ome) (scan_annotation int) ([], []))
      as [[img_map filelist]|e0] eqn:Hscan; cbn [bind] in Hok; [|done].
    destruct (keep_positive int ann_id (structured_annotations ome))
      as [anns|e1] eqn:Hanns; cbn [bind] in Hok; [|done].
    destruct (strip_refs int (images ome)) as [imgs|e2] eqn:Himgs;
      cbn [bind] in Hok; [|done].
    split.
    + by eapply scan_annotations_inv.
    + by eapply (proj1 (strip_refs_inv int (images ome))).
  - intros Hread. destruct (create_image_map_ok int list_of_set ome Hread) as [m ->].
    by eexists.
  - intros e. unfold _create_image_map.
    destruct (for_each (structured_annotations ome) (scan_annotation int) ([], []))
      as [[img_map filelist]|e0] eqn:Hscan; cbn [bind].
    + destruct (keep_positive int ann_id (structured_annotations ome))
        as [anns|e1] eqn:Hanns; cbn [bind].
      * destruct (strip_refs int (images ome)) as [imgs|e2] eqn:Himgs;
          cbn [bind]; [done |].
        intros [= <-]. by eapply (proj2 (strip_refs_inv int (images ome))).
      * intros [= <-].
        by eapply (proj2 (keep_positive_inv int ann_id (structured_annotations ome))).
    + intros [= <-].
      eapply (for_each_raise_only _ _ _ ValueError); [|exact Hscan].
      intros a y e1. apply scan_annotation_raise_only.
Qed.

(** * Extraction from documents with missing fields *)

Section AnyExtraction.

Variable int : string → option Z.

Lemma scan_any_annotation_of_strings acc (a : Annotation) :
  scan_any_annotation int acc (any_annotation a) = scan_annotation int acc a.
Proof.
  unfold scan_any_annotation, scan_annotation. cbn [any_annotation any_id any_namespace any_value].
  destruct (trailing_int int (ann_id a)) as [n|e]; cbn [bind]; [|done].
  destruct (n <? 0); [|done].
  by destruct (trailing_int int (ann_namespace a)).
Qed.

Lemma keep_positive_fmap {A B} (f : A → B) (ident : B → string) (l : list A) :
  keep_positive int ident (f <$> l) =
    bind (keep_positive int (ident ∘ f) l) (λ r, Ok (f <$> r)).
Proof.
  induction l as [|x l IH]; [done |].
  rewrite fmap_cons. cbn [keep_positive compose]. rewrite IH.
  destruct (trailing_int int (ident (f x))) as [n|e]; cbn [bind]; [|done].
  destruct (keep_positive int (ident ∘ f) l) as [rest|e]; cbn [bind]; [|done].
  by destruct (0 <? n).
Qed.

(** One round of the loop, by cases on the annotation. *)
Lemma scan_any_annotation_cases acc (a : AnyAnnotation) :
  match scan_any_annotation int acc a with
  | Ok _ =>
      parses int (any_id a) ∧
      (is_sentinel int (any_id a) →
       is_Some (any_value a) ∧
       ∃ namespace, any_namespace a = Some namespace ∧ parses int namespace)
  | Raise e =>
      (e = AttributeError ∧ lacks_field int a) ∨
      (e = ValueError ∧
       (¬ parses int (any_id a) ∨
        is_sentinel int (any_id a) ∧
        ∃ namespace, any_namespace a = Some namespace ∧ ¬ parses int namespace))
  end.
Proof.
  unfold scan_any_annotation, lacks_field, is_sentinel, parses, trailing_int.
  destruct (int (last_item (split ":" (any_id a)))) as [n|] eqn:Hn; cbn [bind].
  2:{ right. split; [done |]. left. by intros [? ?]. }
  destruct (n <? 0) eqn:Hneg.
  2:{ split; [by eexists |]. apply Z.ltb_ge in Hneg. lia. }
  apply Z.ltb_lt in Hneg.
  destruct (any_namespace a) as [ns|]; [|left; by eauto].
  destruct (int (last_item (split ":" ns))) as [m|] eqn:Hm; cbn [bind].
  2:{ right. split; [done |]. right. split; [done |]. exists ns.
      split; [done |]. rewrite Hm. by intros [? ?]. }
  destruct (any_value a) as [v|]; [|left; by eauto].
  split; [by eexists |]. intros _. split; [by eexists |].
  exists ns. split; [done |]. rewrite Hm. by eexists.
Qed.

Lemma scan_any_annotations_inv (anns : list AnyAnnotation) acc :
  match for_each anns (scan_any_annotation int) acc with
  | Ok _ =>
      Forall (λ a, parses int (any_id a) ∧
                   (is_sentinel int (any_id a) →
                    is_Some (any_value a) ∧
                    ∃ namespace, any_namespace a = Some namespace ∧
                                 parses int namespace)) anns
  | Raise e =>
      (e = AttributeError ∧ ∃ a, a ∈ anns ∧ lacks_field int a) ∨
      (e = ValueError ∧
       ¬ Forall (λ a, parses int (any_id a) ∧
                      (is_sentinel int (any_id a) →
                       ∀ namespace, any_namespace a = Some namespace →
                                    parses int namespace)) anns)
  end.
Proof.
  revert acc. induction anns as [|a anns IH]; intros acc; [by constructor |].
  cbn [for_each].
  pose proof (scan_any_annotation_cases acc a) as Ha.
  destruct (scan_any_annotation int acc a) as [acc'|e]; cbn [bind].
  - specialize (IH acc').
    destruct (for_each anns (scan_any_annotation int) acc') as [r|e].
    + by constructor.
    + destruct IH as [[-> (b & Hb & Hlack)]|[-> Hnot]].
      * left. split; [done |]. exists b. split; [by apply list_elem_of_further | done].
      * right. split; [done |]. intros Hall. apply Hnot.
        by apply Forall_cons in Hall as [_ Hall].
  - destruct Ha as [[-> Hlack]|[-> Hbad]].
    + left. split; [done |]. exists a. split; [apply list_elem_of_here | done].
    + right. split; [done |]. intros Hall.
      apply Forall_cons in Hall as [[Hid Hns] _].
      destruct Hbad as [Hbad|(Hs & ns & Hsome & Hbad)]; [done |].
      by apply Hbad, Hns.
Qed.

End AnyExtraction.

(** When the extraction returns on a document with optional fields, and
    what it raises. *)
Lemma create_image_map_any_outcome (int : string → option Z)
    (list_of_set : list string → list string) (ome : AnyOME) :
  match _create_image_map_any int list_of_set ome with
  | Ok _ => readable_any int ome
  | Raise e =>
      ¬ readable_any int ome ∧
      ((e = AttributeError ∧ ∃ a, a ∈ any_annotations ome ∧ lacks_field int a) ∨
       e = ValueError)
  end.
Proof.
  unfold _create_image_map_any, readable_any.
  pose proof (scan_any_annotations_inv int (any_annotations ome) ([], [])) as Hscan.
  destruct (for_each (any_annotations ome) (scan_any_annotation int) ([], []))
    as [[img_map filelist]|e0]; cbn [bind].
  - destruct (keep_positive_inv int any_id (any_annotations ome)) as [_ Hkraise].
    destruct (keep_positive int any_id (any_annotations ome)) as [anns|e1] eqn:Hk;
      cbn [bind].
    + destruct (strip_refs_inv int (any_images ome)) as [Hsok Hsraise].
      destruct (strip_refs int (any_images ome)) as [imgs|e2] eqn:Hs; cbn [bind].
      * split; [done | by eapply Hsok].
      * split; [|right; by apply Hsraise].
        intros [_ Hrefs].
        rewrite strip_refs_ok in Hs; [done |].
        intros i r Hi Hr. rewrite Forall_forall in Hrefs.
        specialize (Hrefs i Hi). rewrite Forall_forall in Hrefs. by apply Hrefs.
    + split; [|right; by apply Hkraise].
      intros [Hanns _].
      rewrite keep_positive_ok in Hk; [done |].
      intros a Ha. rewrite Forall_forall in Hanns. by apply Hanns.
  - split.
    + intros [Hanns _].
      destruct Hscan as [[-> (a & Ha & Hs & Hnone)]|[-> Hnot]].
      * rewrite Forall_forall in Hanns. destruct (Hanns a Ha) as [_ Hfields].
        destruct (Hfields Hs) as ([v Hv] & ns & Hns & _).
        destruct Hnone; congruence.
      * apply Hnot. eapply Forall_impl; [exact Hanns |].
        intros a [Hid Hfields]. split; [done |].
        intros Hs ns Hns. destruct (Hfields Hs) as (_ & ns' & Hns' & Hp).
        congruence.
    + destruct Hscan as [[-> Hlack]|[-> _]]; [left | right]; done.
Qed.

Lemma create_image_map_any_of_strings (int : string → option Z)
    (list_of_set : list string → list string) (ome : OME) :
  _create_image_map_any int list_of_set (any_ome ome) =
    bind (_create_image_map int list_of_set ome)
      (λ r, Ok (any_ome r.1.1, r.1.2, r.2)).
Proof.
  unfold _create_image_map_any, _create_image_map.
  cbn [any_ome any_annotations any_images].
  rewrite for_each_fmap.
  rewrite (for_each_ext _ _ (scan_annotation int))
    by (intros; apply scan_any_annotation_of_strings).
  destruct (for_each (structured_annotations ome) (scan_annotation int) ([], []))
    as [[img_map filelist]|e0]; cbn [bind]; [|done].
  rewrite keep_positive_fmap.
  change (any_id ∘ any_annotation) with ann_id.
  destruct (keep_positive int ann_id (structured_annotations ome)) as [anns|e1];
    cbn [bind]; [|done].
  by destruct (strip_refs int (images ome)) as [imgs|e2].
Qed.



(** The source path map of a readable document. *)
Lemma create_image_map_source_map (int : string → option Z)
    (list_of_set : list string → list string) (ome : OME) :
  readable int ome →
  ∃ ome' img_map filelist,
    _create_image_map int list_of_set ome = Ok (ome', img_map, filelist) ∧
    ∀ v,
      (is_Some (get v img_map) ↔
       ∃ a, a ∈ structured_annotations ome ∧ is_sentinel int (ann_id a) ∧
            ann_value a = v) ∧
      getitem_default v img_map =
        sorted (sentinel_ids int v (structured_annotations ome)) ∧
      StronglySorted Z.le (getitem_default v img_map) ∧
      getitem_default v img_map ≡ₚ sentinel_ids int v (structured_annotations ome).
Proof.
  intros Hread. pose proof Hread as [Hanns _].
  destruct (scan_annotations_map int (structured_annotations ome) [] [] Hanns)
    as (m & fl & Hscan & Hmap).
  destruct (create_image_map_ok int list_of_set ome Hread) as [img_map Hok].
  eexists _, img_map, _. split; [exact Hok |].
  assert (img_map = (λ kv : string * list Z, (kv.1, sorted kv.2)) <$> m) as ->.
  { unfold _create_image_map in Hok. unfold dict in *. rewrite Hscan in Hok.
    cbn [bind] in Hok.
    destruct (keep_positive _ _ _); cbn [bind] in Hok; [|done].
    destruct (strip_refs _ _); cbn [bind] in Hok; [|done]. by injection Hok. }
  intros v. destruct (Hmap v) as [Hget Hdom].
  assert (getitem_default v ((λ kv : string * list Z, (kv.1, sorted kv.2)) <$> m)
          = sorted (sentinel_ids int v (structured_annotations ome))) as Hsorted.
  { unfold getitem_default in *. rewrite get_fmap_values.
    destruct (get v m) as [l|]; simpl in *; by rewrite <-Hget. }
  split; [|split; [exact Hsorted | rewrite Hsorted; split]].
  - rewrite get_fmap_values, fmap_is_Some, Hdom. split; [|by right].
    intros [[? ?]|?]; done.
  - apply StronglySorted_merge_sort; apply _.
  - apply merge_sort_Permutation.
Qed.

(** X6.  The source path map [_create_image_map] returns is keyed by the
    values of the sentinels as they stand in the document (not by their
    join keys), and under each value it lists the source images of the
    sentinels with that value, sorted in ascending order. *)
Theorem source_map_lists_sorted_sentinel_ids (int : string → option Z)
    (list_of_set : list string → list string) (ome : OME) :
  readable int ome →
  ∃ ome' img_map filelist,
    _create_image_map int list_of_set ome = Ok (ome', img_map, filelist) ∧
    ∀ v,
      (is_Some (get v img_map) ↔
       ∃ a, a ∈ structured_annotations ome ∧ is_sentinel int (ann_id a) ∧
            ann_value a = v) ∧
      getitem_default v img_map =
        sorted (sentinel_ids int v (structured_annotations ome)) ∧
      StronglySorted Z.le (getitem_default v img_map) ∧
      getitem_default v img_map ≡ₚ sentinel_ids int v (structured_annotations ome).
Proof. apply create_image_map_source_map. Qed.

Lemma source_map_lists_sorted_sentinel_ids_witness :
  ∃ ome' img_map filelist,
    _create_image_map py_int dedup example_document = Ok (ome', img_map, filelist) ∧
    getitem_default "/repo/./a/img.tif" img_map = [500; 501] ∧
    get "a/img.tif" img_map = None.
Proof.
  destruct (source_map_lists_sorted_sentinel_ids py_int dedup example_document)
    as (ome' & img_map & filelist & Hok & Hmap).
  - by apply (bool_decide_unpack _).
  - exists ome', img_map, filelist. split; [exact Hok |].
    split; [by rewrite (proj1 (proj2 (Hmap "/repo/./a/img.tif"))) |].
    vm_compute in Hok. injection Hok as _ <- _. reflexivity.
Defined.

(** * Import paths and join keys *)

Section ImportRoundTrip.

(** After a prefix that brings no marker of its own, the join key is what
    follows the marker. *)
Lemma normalize_after_clean_prefix x f :
  ¬ occurs "/./" f → ¬ occurs "/./" (x +:+ "/.") →
  normalize (x +:+ "/./" +:+ f) = f.
Proof.
  intros Hf Hx. rewrite normalize_unfold.
  destruct (find "/./" (x +:+ "/./" +:+ f)) as [[a b]|] eqn:Hfind.
  2:{ apply find_None in Hfind. destruct Hfind. by exists x, f. }
  pose proof (find_first _ _ _ _ _ _ Hfind eq_refl) as Hlen.
  pose proof (find_Some _ _ _ _ Hfind) as Heq. symmetry in Heq.
  destruct (append_eq_split _ _ _ _ Heq Hlen) as (q & -> & Hq).
  destruct q as [|c1 [|c2 [|c3 q]]]; simpl in Hq.
  - injection Hq as ->. by apply normalize_no_marker.
  - injection Hq as <- Hq. discriminate.
  - injection Hq as <- <- _. destruct Hx. exists a, ".".
    by rewrite !append_assoc.
  - injection Hq as <- <- <- _. destruct Hx. exists a, (q +:+ "/.").
    by rewrite !append_assoc.
Qed.

Lemma join_dot_nonempty folder :
  folder ≠ "" → ∃ x, join folder ["."] = x +:+ "/.".
Proof.
  intros Hne. destruct (join_dot folder) as [Hdot|Hx]; [|done].
  unfold join in Hdot. cbn [foldl] in Hdot. unfold join_step in Hdot.
  replace (startswith "." "/") with false in Hdot by done.
  rewrite bool_decide_eq_false_2 in Hdot by done. simpl in Hdot.
  destruct (endswith_slash folder); destruct folder as [|c [|c' folder]];
    simpl in Hdot; try done; discriminate.
Qed.

(** The import path of a file of the list has the file as join key. *)
Lemma normalize_join_string folder f :
  folder ≠ "" → ¬ occurs "/./" (join folder ["."]) → ¬ occurs "/./" f →
  normalize (join folder ["."; f]) = f.
Proof.
  intros Hne Hfolder Hf. rewrite join_dot_file.
  destruct (startswith f "/"); [by apply normalize_no_marker |].
  destruct (join_dot_nonempty folder Hne) as [x Hx]. rewrite Hx in *.
  replace ((x +:+ "/.") +:+ "/" +:+ f) with (x +:+ "/./" +:+ f)
    by by rewrite !append_assoc.
  by apply normalize_after_clean_prefix.
Qed.

Lemma no_slash_cons c s : ¬ occurs "/" (String c s) → c ≠ "/"%char ∧ ¬ occurs "/" s.
Proof.
  intros Hno. split.
  - intros ->. apply Hno. by exists "", s.
  - intros (a & b & ->). apply Hno. by exists (String c a), b.
Qed.

(** A marker cannot start inside a component. *)
Lemma occurs_marker_skip_part c t :
  ¬ occurs "/" c → occurs "/./" (c +:+ t) → occurs "/./" t.
Proof.
  induction c as [|x c IH]; [done |].
  intros [Hx Hc]%no_slash_cons (a & b & Heq). destruct a as [|y a]; simpl in Heq.
  - by injection Heq.
  - injection Heq as _ Heq. apply IH; [done |]. by exists a, b.
Qed.

Lemma occurs_marker_skip_slash t :
  strip_prefix "./" t = None → occurs "/./" (String "/" t) → occurs "/./" t.
Proof.
  intros Hstart (a & b & Heq). destruct a as [|y a]; simpl in Heq.
  - injection Heq as ->. by rewrite (proj2 (strip_prefix_Some "./" _ b)) in Hstart.
  - injection Heq as _ ->. by exists a, b.
Qed.

Lemma part_then_slash_start c t :
  good_part c → strip_prefix "./" (c +:+ String "/" t) = None.
Proof.
  intros (Hne & Hdot & Hslash).
  destruct (strip_prefix "./" (c +:+ String "/" t)) as [r|] eqn:Hp; [|done].
  apply strip_prefix_Some in Hp. destruct c as [|x [|y c]]; simpl in Hp.
  - done.
  - injection Hp as -> _. done.
  - injection Hp as -> -> _. destruct Hslash. by exists ".", c.
Qed.

Lemma dotted_tail_head l : ∃ t, dotted_tail l = String "/" t.
Proof. destruct l; simpl; by eexists. Qed.

Lemma dotted_tail_marker_free l :
  Forall good_part l → ¬ occurs "/./" (dotted_tail l).
Proof.
  induction 1 as [|c l Hc Hl IH]; simpl.
  - apply find_None. reflexivity.
  - intros Hocc. apply IH.
    apply (occurs_marker_skip_part c); [apply Hc |].
    apply occurs_marker_skip_slash; [|done].
    destruct (dotted_tail_head l) as [t ->]. by apply part_then_slash_start.
Qed.

Lemma join_parts_dotted c l :
  join_parts (c :: l) +:+ "/." = c +:+ dotted_tail l.
Proof.
  revert c. induction l as [|c' l IH]; intros c; [done |].
  change (join_parts (c :: c' :: l)) with (c +:+ "/" +:+ join_parts (c' :: l)).
  change (dotted_tail (c' :: l)) with ("/" +:+ c' +:+ dotted_tail l).
  rewrite !append_assoc. by rewrite IH.
Qed.

Lemma endswith_slash_app s t :
  t ≠ "" → endswith_slash (s +:+ t) = endswith_slash t.
Proof.
  intros Ht. induction s as [|c s IH]; [done |].
  simpl. destruct (s +:+ t) eqn:Hst; [by destruct s, t | exact IH].
Qed.

Lemma endswith_slash_occurs s : endswith_slash s = true → occurs "/" s.
Proof. intros [x ->]%endswith_slash_snoc. exists x, "". done. Qed.

Lemma join_parts_end c l :
  Forall good_part (c :: l) →
  join_parts (c :: l) ≠ "" ∧ endswith_slash (join_parts (c :: l)) = false.
Proof.
  revert c. induction l as [|c' l IH]; intros c [Hc Hl]%Forall_cons.
  - simpl. split; [apply Hc |].
    destruct (endswith_slash c) eqn:He; [|done].
    apply endswith_slash_occurs in He. by destruct Hc as (_ & _ & []).
  - destruct (IH c' Hl) as [Hne Hend].
    change (join_parts (c :: c' :: l)) with (c +:+ "/" +:+ join_parts (c' :: l)).
    split.
    + destruct c; [by destruct Hc | done].
    + rewrite <-append_assoc, endswith_slash_app; done.
Qed.

(** The string of a path is not empty, and putting [.] after it brings no
    marker. *)
Lemma str_wf_path p :
  wf_path p → str p ≠ "" ∧ ¬ occurs "/./" (join (str p) ["."]).
Proof.
  intros [Hroot Hparts]. destruct p as [r l]. simpl in *.
  destruct l as [|c l].
  - destruct Hroot as [->|[->| ->]]; (split; [done | apply find_None; reflexivity]).
  - destruct (join_parts_end c l Hparts) as [Hne Hend].
    assert (str {| root := r; parts := c :: l |} = r +:+ join_parts (c :: l)) as ->
      by (unfold str; simpl; by destruct r).
    split; [destruct r; [done | done] |].
    unfold join. cbn [foldl]. unfold join_step.
    replace (startswith "." "/") with false by done.
    rewrite endswith_slash_app, Hend by done.
    rewrite bool_decide_eq_false_2 by (destruct r; done). cbn [orb].
    replace ((r +:+ join_parts (c :: l)) +:+ "/" +:+ ".")
      with ((r +:+ join_parts (c :: l)) +:+ "/.") by by rewrite !append_assoc.
    replace ((r +:+ join_parts (c :: l)) +:+ "/.")
      with (r +:+ c +:+ dotted_tail l)
      by (by rewrite append_assoc, join_parts_dotted).
    apply Forall_cons in Hparts as [Hc Hl].
    pose proof (dotted_tail_marker_free l Hl) as Hfree.
    assert (strip_prefix "./" (c +:+ dotted_tail l) = None) as Hstart.
    { destruct (dotted_tail_head l) as [t ->]. by apply part_then_slash_start. }
    assert (¬ occurs "/./" (c +:+ dotted_tail l)) as Hc'.
    { intros Hocc. apply Hfree. apply (occurs_marker_skip_part c); [apply Hc | done]. }
    destruct Hroot as [->|[->| ->]].
    + exact Hc'.
    + intros Hocc. apply Hc'. by apply occurs_marker_skip_slash.
    + intros Hocc. apply Hc'. apply occurs_marker_skip_slash; [done |].
      apply occurs_marker_skip_slash; [|exact Hocc].
      destruct c; [by destruct Hc | done].
Qed.

End ImportRoundTrip.

Section PathsWellFormed.

Lemma find_before_free sep s a b :
  sep ≠ "" → find sep s = Some (a, b) → ¬ occurs sep a.
Proof.
  intros Hsep Hf (u & w & ->).
  pose proof (find_Some _ _ _ _ Hf) as Heq.
  rewrite !append_assoc in Heq.
  pose proof (find_first _ _ _ _ _ _ Hf Heq) as Hlen.
  rewrite !length_append in Hlen. destruct sep; [done |]. simpl in Hlen. lia.
Qed.

(** No field of [s.split(sep)] holds the separator. *)
Lemma split_fields_free sep s x :
  sep ≠ "" → x ∈ split sep s → ¬ occurs sep x.
Proof.
  intros Hsep. revert x. induction s as [s IH] using string_length_ind.
  intros x. rewrite split_unfold by done.
  destruct (find sep s) as [[a b]|] eqn:Hf.
  - intros [->|Hx]%elem_of_cons; [by eapply (find_before_free sep s) |].
    eapply IH; [|done]. by eapply find_shrinks.
  - intros ->%list_elem_of_singleton. by apply find_None.
Qed.

Lemma parse_wf s : wf_path (parse s).
Proof.
  split.
  - simpl. unfold parse_root.
    destruct (startswith s "///"); [by right; left |].
    destruct (startswith s "//"); [by right; right |].
    destruct (startswith s "/"); [by right; left | by left].
  - simpl. apply Forall_forall. intros x Hx.
    apply list_elem_of_In, filter_In in Hx as [Hx Hkeep].
    apply list_elem_of_In in Hx. unfold keep_part in Hkeep.
    apply andb_prop in Hkeep as [H1 H2].
    apply negb_true_iff, bool_decide_eq_false in H1.
    apply negb_true_iff, bool_decide_eq_false in H2.
    split; [done |]. split; [done |]. by apply (split_fields_free "/" s).
Qed.

Lemma Forall_removelast {A} (P : A → Prop) (l : list A) :
  Forall P l → Forall P (removelast l).
Proof.
  induction 1 as [|x l Hx Hl IH]; simpl; [constructor |].
  destruct l; [constructor | by constructor].
Qed.

Lemma parent_wf p : wf_path p → wf_path (parent p).
Proof. intros [Hr Hp]. split; [done |]. by apply Forall_removelast. Qed.

Lemma truediv_wf p s : wf_path p → wf_path (truediv p s).
Proof.
  intros [Hr Hp]. unfold truediv.
  destruct (parse_wf s) as [Hr' Hp'].
  destruct (root (parse s)) eqn:Hroot.
  - split; [done |]. simpl. by apply Forall_app.
  - split; [by rewrite Hroot | done].
Qed.

Lemma unpack_folder_wf filepath output : wf_path (unpack_folder filepath output).
Proof.
  unfold unpack_folder. destruct output as [[|c dir]|].
  - apply truediv_wf, parent_wf, parse_wf.
  - apply parse_wf.
  - apply truediv_wf, parent_wf, parse_wf.
Qed.

End PathsWellFormed.

(** X7.  The folder [__unpack] extracts into is a path as [Path] builds
    them, and for such a folder the path a file of the list is imported
    from leads back to the file: the join key of
    [os.path.join(folder, '.', f)] is [f], for every [f] without a marker.
    The destination map is keyed by these paths, so reconciliation finds
    each imported file under the name it has in the file list. *)
Theorem import_path_has_the_file_as_join_key
    (filepath : string) (output : option string) :
  wf_path (unpack_folder filepath output) ∧
  ∀ (folder : path) (f : string),
    wf_path folder → ¬ occurs "/./" f →
    normalize (join (str folder) ["."; f]) = f.
Proof.
  split; [apply unpack_folder_wf |].
  intros folder f Hwf Hf. destruct (str_wf_path folder Hwf) as [Hne Hfree].
  by apply normalize_join_string.
Qed.

Lemma import_path_has_the_file_as_join_key_witness :
  normalize (join (str (unpack_folder "/data/pack.zip" None)) ["."; "a/img.tif"])
    = "a/img.tif".
Proof.
  destruct (import_path_has_the_file_as_join_key "/data/pack.zip" None)
    as [Hwf Hround].
  apply Hround; [exact Hwf |]. apply find_None. reflexivity.
Defined.

(** * The destination map of a complete import *)

Section ImportFurther.

Context {Server : Type}.
Variable invoke : list string → Server → invoke_outcome * Server.
Variable projection : string → Server → list Z.

Lemma get_set_is_Some {V} k k' (v : V) (d : dict V) :
  is_Some (get k (set k' v d)) ↔ k' = k ∨ is_Some (get k d).
Proof.
  destruct (decide (k' = k)) as [->|Hne].
  - rewrite get_set_eq. naive_solver.
  - rewrite get_set_ne by done. naive_solver.
Qed.

Lemma get_image_ids_sorted file_path srv :
  StronglySorted Z.le (_get_image_ids projection file_path srv).
Proof. apply StronglySorted_merge_sort; apply _. Qed.

(** What a loop that ends without an exception leaves in the map. *)
Lemma import_loop_Ok folder ln_s filelist dest_map srv dest_map' srv' tr :
  import_loop invoke projection folder ln_s filelist dest_map srv
    = (Ok dest_map', srv', tr) →
  (∀ k, is_Some (get k dest_map) → is_Some (get k dest_map')) ∧
  (∀ f, f ∈ filelist → is_Some (get (join folder ["."; f]) dest_map')) ∧
  (∀ k ids, (k, ids) ∈ dest_map' →
     (k, ids) ∈ dest_map ∨
     StronglySorted Z.le ids ∧ ∃ f, f ∈ filelist ∧ k = join folder ["."; f]) ∧
  (NoDup dest_map.*1 → NoDup dest_map'.*1).
Proof.
  revert dest_map srv tr. induction filelist as [|f filelist IH];
    intros dest_map srv tr.
  - intros [= <- <- <-]. split; [done |]. split; [|split; [by left | done]].
    intros f Hf. by apply elem_of_nil in Hf.
  - rewrite import_loop_cons. cbv zeta.
    destruct (invoke _ srv) as [[rv|e] srv1]; [|done].
    destruct (import_loop _ _ _ _ filelist _ srv1) as [[r s] t] eqn:Hrest.
    cbn [fst snd]. intros [= -> -> <-].
    destruct (IH _ _ _ Hrest) as (Hkeep & Hfiles & Helems & Hnd).
    split; [|split; [|split]].
    + intros k Hk. apply Hkeep, get_set_is_Some. by right.
    + intros g [->|Hg]%elem_of_cons; [|by apply Hfiles].
      apply Hkeep, get_set_is_Some. by left.
    + intros k ids Hin. destruct (Helems k ids Hin) as [Hset|(Hs & g & Hg & ->)].
      * apply elem_of_set in Hset as [[= -> ->]|Hd]; [|by left].
        right. split; [apply get_image_ids_sorted |].
        exists f. split; [apply list_elem_of_here | done].
      * right. split; [done |]. exists g. split; [by apply list_elem_of_further | done].
    + intros Hd. by apply Hnd, set_keys_NoDup.
Qed.

End ImportFurther.

(** X8.  When [_import_files] ends without an exception, the destination
    map has an entry under the import path of every file of the list and
    under no other key, the keys are all different, and every list of
    image ids in it is sorted in ascending order. *)
Theorem complete_import_maps_every_file {Server : Type}
    (invoke : list string → Server → invoke_outcome * Server)
    (projection : string → Server → list Z)
    (folder : path) (filelist : list string) (ln_s : bool) (srv srv' : Server)
    (dest_map : dict (list Z)) (tr : list effect) :
  _import_files invoke projection folder filelist ln_s srv = (Ok dest_map, srv', tr) →
  (∀ f, f ∈ filelist → is_Some (get (join (str folder) ["."; f]) dest_map)) ∧
  (∀ k ids, (k, ids) ∈ dest_map →
     StronglySorted Z.le ids ∧ ∃ f, f ∈ filelist ∧ k = join (str folder) ["."; f]) ∧
  NoDup dest_map.*1.
Proof.
  intros Hrun. apply import_loop_Ok in Hrun as (_ & Hfiles & Helems & Hnd).
  split; [done |]. split; [|apply Hnd; constructor].
  intros k ids Hin. destruct (Helems k ids Hin) as [Hnil|?]; [|done].
  by apply elem_of_nil in Hnil.
Qed.

Lemma complete_import_maps_every_file_witness :
  is_Some (get "/out/./b.tif" [("/out/./a.tif", [1; 2]); ("/out/./b.tif", [1; 2])]).
Proof.
  apply (proj1 (complete_import_maps_every_file
                  (example_invoke [] ["/out/./a.tif"])
                  (example_projection (λ _, [2; 1]))
                  (parse "/out") ["a.tif"; "b.tif"] false [] _ _ _ eq_refl)
           "b.tif").
  apply list_elem_of_further, list_elem_of_here.
Defined.

(** X9.  Extraction, import and reconciliation fit together: for a
    document read by [_create_image_map] and an import of its file list
    that ends without an exception, into a folder as [Path] builds them,
    every join key of the source path map is a join key of the destination
    map.  Reconciliation then never misses a destination key: by X1 it
    raises only when a file gave fewer images than it has sentinels. *)
Theorem complete_import_matches_every_source_key {Server : Type}
    (int : string → option Z) (list_of_set : list string → list string)
    (invoke : list string → Server → invoke_outcome * Server)
    (projection : string → Server → list Z)
    (ome ome' : OME) (src_img_map dest_img_map : dict (list Z))
    (filelist : list string) (folder : path) (ln_s : bool)
    (srv srv' : Server) (tr : list effect) :
  set_list_spec list_of_set → wf_path folder →
  _create_image_map int list_of_set ome = Ok (ome', src_img_map, filelist) →
  _import_files invoke projection folder filelist ln_s srv
    = (Ok dest_img_map, srv', tr) →
  ∀ j, is_Some (get j (merge_by_suffix src_img_map)) →
       is_Some (get j (merge_by_suffix dest_img_map)) ∧
       j ∈ filelist.
Proof.
  intros Hset Hwf Hextract Himport j Hj.
  assert (readable int ome) as Hread.
  { apply (proj1 (create_image_map_returns_iff int list_of_set ome)). by eexists. }
  destruct (create_image_map_source_map int list_of_set ome Hread)
    as (ome0 & m0 & fl0 & Hok & Hmap).
  destruct (create_image_map_ok int list_of_set ome Hread) as [m1 Hok1].
  rewrite Hextract in Hok, Hok1. injection Hok as <- <- <-.
  injection Hok1 as _ _ Hfl.
  apply merge_in_dom in Hj as ([v ids] & Hin & <-). simpl.
  assert (is_Some (get v src_img_map)) as Hv.
  { destruct (get v src_img_map) eqn:Hg; [done |].
    apply get_None_keys in Hg. destruct Hg.
    apply list_elem_of_fmap. by exists (v, ids). }
  apply (proj1 (Hmap v)) in Hv as (a & Ha & Hs & <-).
  assert (normalize (ann_value a) ∈ filelist) as Hfile.
  { rewrite Hfl. apply (proj2 (Hset _)). unfold sentinel_files.
    apply list_elem_of_fmap. exists a. split; [done |].
    by apply list_elem_of_filter. }
  split; [|done].
  apply import_loop_Ok in Himport as (_ & Hfiles & _).
  destruct (Hfiles _ Hfile) as [dids Hd].
  apply merge_in_dom. eexists (_, dids). split; [by apply get_Some_elem |].
  simpl. destruct (str_wf_path folder Hwf) as [Hne Hfree].
  apply normalize_join_string; [done | done | apply normalize_marker_free].
Qed.

Lemma complete_import_matches_every_source_key_witness :
  is_Some (get "a/img.tif"
             (merge_by_suffix [("/out/./a/img.tif", [9001; 9002])])).
Proof.
  apply (complete_import_matches_every_source_key py_int dedup
           (example_invoke [] []) (example_projection (λ _, [9002; 9001]))
           example_document _ _ _ _ (parse "/out") false [] _ _
           dedup_spec (parse_wf "/out") eq_refl eq_refl "a/img.tif").
  by eexists.
Defined.

(** * The stages of [unpack] and [pack] *)

Section Stages.

Context {Server : Type}.
Variable invoke : list string → Server → invoke_outcome * Server.
Variable projection : string → Server → list Z.

(** The import loop invokes and does nothing else. *)
Lemma import_trace_invokes folder filelist ln_s srv eff :
  eff ∈ (_import_files invoke projection folder filelist ln_s srv).2 →
  ∃ argv, eff = Invoke argv.
Proof.
  intros Hin. unfold _import_files in Hin.
  destruct (import_loop_trace invoke projection folder ln_s filelist [] srv)
    as [[k Hpre] _].
  assert (eff ∈ import_of folder ln_s <$> filelist) as Hall
    by (rewrite Hpre; apply elem_of_app; by left).
  apply list_elem_of_fmap in Hall as (f & -> & _). by eexists.
Qed.

(** [_copy_files] makes directories and invokes, and does nothing else. *)
Lemma copy_trace_effects id_list folder repo srv eff :
  eff ∈ (_copy_files invoke id_list folder repo srv).2 →
  (∃ d, eff = MakeDirs d) ∨ ∃ argv, eff = Invoke argv.
Proof.
  revert srv. induction id_list as [|[id path] id_list IH]; intros srv; simpl.
  - intros H. by apply elem_of_nil in H.
  - unfold copy_file. destruct repo as [|c repo']; [intros H; by apply elem_of_nil in H |].
    destruct (invoke _ srv) as [[rv|e] srv1]; simpl.
    + destruct (_copy_files invoke id_list folder (String c repo') srv1)
        as [[r s] t] eqn:Hrest. simpl.
      intros [->|[->|Hin]%elem_of_cons]%elem_of_cons; [left | right |]; eauto.
      apply (IH srv1). by rewrite Hrest.
    + intros [->|[->|Hin]%elem_of_cons]%elem_of_cons; [left | right |]; eauto.
      by apply elem_of_nil in Hin.
Qed.

Lemma get_path_to_repo_filter (repos : list Repository) :
  _get_path_to_repo repos =
    (λ r, desc_path r +:+ desc_name r) <$> filter (λ r, is_mrepo r = true) repos.
Proof.
  unfold _get_path_to_repo.
  assert (∀ acc, foldl (λ mrepos r,
                          if is_mrepo r then mrepos ++ [desc_path r +:+ desc_name r]
                          else mrepos) acc repos
                 = acc ++ ((λ r, desc_path r +:+ desc_name r) <$>
                             filter (λ r, is_mrepo r = true) repos)) as Hgen.
  { induction repos as [|r repos IH]; intros acc; simpl; [by rewrite app_nil_r |].
    rewrite IH, filter_cons. destruct (is_mrepo r) eqn:Hm.
    - rewrite decide_True by done. by rewrite fmap_cons, <-app_assoc.
    - by rewrite decide_False by done. }
  by rewrite Hgen.
Qed.

End Stages.

(** * [pack] and [unpack] when collaborators raise *)

(** Membership in a trace written with [::] and [++], case by case. *)
Ltac trace_cases H :=
  repeat first
    [ apply elem_of_nil in H; destruct H
    | apply elem_of_cons in H as [H|H]
    | apply elem_of_app in H as [H|H] ].

Section RaisingLoops.

Context {Server : Type}.
Variable invoke : list string → Server → invoke_outcome * Server.
Variable query : string → Server → result (list Z).
Variable loadplugins : Server → result ().
Variable perform : effect → Server → result () * Server.

(** One round of the copy, by cases on its outcome. *)
Lemma copy_file_raising_cases folder repo id path srv :
  repo ≠ "" →
  match copy_file_raising invoke perform folder repo id path srv with
  | (Ok _, srv2, tr) =>
      tr = copy_steps folder repo (id, path) ∧
      ∃ srv1 rv,
        perform (MakeDirs (copy_target folder repo path)) srv = (Ok (), srv1) ∧
        invoke ["download"; id; copy_target folder repo path] srv1
          = (Returned rv, srv2)
  | (Raise e, srv2, tr) =>
      (perform (MakeDirs (copy_target folder repo path)) srv = (Raise e, srv2) ∧
       tr = [MakeDirs (copy_target folder repo path)]) ∨
      (∃ srv1,
         perform (MakeDirs (copy_target folder repo path)) srv = (Ok (), srv1) ∧
         invoke ["download"; id; copy_target folder repo path] srv1
           = (Raised e, srv2) ∧
         tr = copy_steps folder repo (id, path))
  end.
Proof.
  intros Hrepo. unfold copy_file_raising. destruct repo as [|c repo]; [done |].
  fold (copy_target folder (String c repo) path).
  destruct (perform (MakeDirs _) srv) as [[[]|e] srv1] eqn:Hmk.
  - destruct (invoke _ srv1) as [[rv|e] srv2] eqn:Hinv.
    + split; [done |]. by exists srv1, rv.
    + right. by exists srv1.
  - by left.
Qed.

(** A loop that returns has gone through every entry. *)
Lemma copy_loop_raising_Ok id_list folder repo srv srv' tr :
  repo ≠ "" →
  copy_loop_raising invoke perform id_list folder repo srv = (Ok (), srv', tr) →
  tr = id_list ≫= copy_steps folder repo.
Proof.
  intros Hrepo. revert srv tr.
  induction id_list as [|[id path] id_list IH]; intros srv tr.
  - by intros [= <- <-].
  - cbn [copy_loop_raising].
    pose proof (copy_file_raising_cases folder repo id path srv Hrepo) as Hone.
    destruct (copy_file_raising invoke perform folder repo id path srv)
      as [[[[]|e] srv1] tr1]; [|done].
    destruct Hone as [-> _].
    destruct (copy_loop_raising invoke perform id_list folder repo srv1)
      as [[r srv2] tr2] eqn:Hrest.
    intros [= -> -> <-]. by rewrite (IH _ _ Hrest).
Qed.

(** A loop that raises stopped in the round of one entry: the entries
    before it were copied, the call that raised is the last effect, and
    nothing is done for the entries after it. *)
Lemma copy_loop_raising_Raise id_list folder repo srv e srv2 tr :
  repo ≠ "" →
  copy_loop_raising invoke perform id_list folder repo srv = (Raise e, srv2, tr) →
  ∃ before id path after srv0,
    id_list = before ++ (id, path) :: after ∧
    copy_loop_raising invoke perform before folder repo srv
      = (Ok (), srv0, before ≫= copy_steps folder repo) ∧
    ((perform (MakeDirs (copy_target folder repo path)) srv0 = (Raise e, srv2) ∧
      tr = (before ≫= copy_steps folder repo) ++
           [MakeDirs (copy_target folder repo path)]) ∨
     (∃ srv1,
        perform (MakeDirs (copy_target folder repo path)) srv0 = (Ok (), srv1) ∧
        invoke ["download"; id; copy_target folder repo path] srv1
          = (Raised e, srv2) ∧
        tr = (before ≫= copy_steps folder repo) ++
             copy_steps folder repo (id, path))).
Proof.
  intros Hrepo. revert srv tr.
  induction id_list as [|[id path] id_list IH]; intros srv tr; [done |].
  cbn [copy_loop_raising].
  pose proof (copy_file_raising_cases folder repo id path srv Hrepo) as Hone.
  destruct (copy_file_raising invoke perform folder repo id path srv)
    as [[[[]|e1] srv1] tr1] eqn:Hfile.
  - destruct Hone as [-> _].
    destruct (copy_loop_raising invoke perform id_list folder repo srv1)
      as [[r srv3] tr3] eqn:Hrest.
    intros [= -> -> <-].
    destruct (IH _ _ Hrest) as (before & id' & path' & after & srv0 & -> & Hbefore & Hlast).
    exists ((id, path) :: before), id', path', after, srv0.
    split; [done |]. split.
    + cbn [copy_loop_raising]. by rewrite Hfile, Hbefore.
    + change (((id, path) :: before) ≫= copy_steps folder repo)
        with (copy_steps folder repo (id, path) ++
              (before ≫= copy_steps folder repo)).
      destruct Hlast as [[Hmk ->]|(srv1' & Hmk & Hinv & ->)].
      * left. split; [done |]. by rewrite <-app_assoc.
      * right. exists srv1'. split; [done |]. split; [done |].
        by rewrite <-app_assoc.
  - intros [= -> -> <-].
    exists [], id, path, id_list, srv. split; [done |]. split; [done |].
    destruct Hone as [[Hmk ->]|(srv1' & Hmk & Hinv & ->)]; [by left |].
    right. by exists srv1'.
Qed.

(** The copy makes directories and invokes, and does nothing else. *)
Lemma copy_loop_raising_effects id_list folder repo srv eff :
  eff ∈ (copy_loop_raising invoke perform id_list folder repo srv).2 →
  (∃ d, eff = MakeDirs d) ∨ ∃ argv, eff = Invoke argv.
Proof.
  revert srv. induction id_list as [|[id path] id_list IH]; intros srv;
    cbn [copy_loop_raising].
  - intros H. by apply elem_of_nil in H.
  - unfold copy_file_raising.
    destruct repo as [|c repo']; [intros H; by apply elem_of_nil in H |].
    destruct (perform (MakeDirs _) srv) as [[[]|e] srv1].
    + destruct (invoke _ srv1) as [[rv|e] srv2].
      * destruct (copy_loop_raising invoke perform id_list folder (String c repo') srv2)
          as [[r s] t] eqn:Hrest.
        cbn [snd]. intros Hin. trace_cases Hin; subst; eauto.
        apply (IH srv2). by rewrite Hrest.
      * cbn [snd]. intros Hin. trace_cases Hin; subst; eauto.
    + cbn [snd]. intros Hin. trace_cases Hin; subst; eauto.
Qed.

Lemma copy_files_raising_effects id_list folder repo srv eff :
  eff ∈ (_copy_files_raising invoke loadplugins perform id_list folder repo srv).2 →
  (∃ d, eff = MakeDirs d) ∨ ∃ argv, eff = Invoke argv.
Proof.
  unfold _copy_files_raising. destruct (loadplugins srv).
  - apply copy_loop_raising_effects.
  - intros H. by apply elem_of_nil in H.
Qed.

(** The import invokes and does nothing else. *)
Lemma import_loop_raising_effects folder ln_s filelist dest_map srv eff :
  eff ∈ (import_loop_raising invoke query folder ln_s filelist dest_map srv).2 →
  ∃ argv, eff = Invoke argv.
Proof.
  revert dest_map srv.
  induction filelist as [|f filelist IH]; intros dest_map srv;
    cbn [import_loop_raising].
  - intros H. by apply elem_of_nil in H.
  - destruct (invoke _ srv) as [[rv|e] srv1].
    + destruct (_get_image_ids_raising query _ srv1) as [img_ids|e].
      * destruct (import_loop_raising invoke query folder ln_s filelist _ srv1)
          as [[r s] t] eqn:Hrest.
        cbn [snd]. intros Hin. trace_cases Hin; subst; eauto.
        eapply (IH _ srv1). by rewrite Hrest.
      * cbn [snd]. intros Hin. trace_cases Hin; subst; eauto.
    + cbn [snd]. intros Hin. trace_cases Hin; subst; eauto.
Qed.

Lemma import_files_raising_effects folder filelist ln_s srv eff :
  eff ∈ (_import_files_raising invoke query loadplugins folder filelist ln_s srv).2 →
  ∃ argv, eff = Invoke argv.
Proof.
  unfold _import_files_raising. destruct (loadplugins srv).
  - apply import_loop_raising_effects.
  - intros H. by apply elem_of_nil in H.
Qed.

(** When the collaborators come back, the loops are the ones modelled
    without exceptions. *)
Lemma copy_files_raising_returning id_list folder repo srv :
  (∀ s, loadplugins s = Ok ()) →
  (∀ eff s, perform eff s = (Ok (), s)) →
  _copy_files_raising invoke loadplugins perform id_list folder repo srv
    = _copy_files invoke id_list folder repo srv.
Proof.
  intros Hload Hperform. unfold _copy_files_raising. rewrite Hload.
  revert srv. induction id_list as [|[id path] id_list IH]; intros srv; [done |].
  cbn [copy_loop_raising _copy_files].
  assert (copy_file_raising invoke perform folder repo id path srv
          = copy_file invoke folder repo id path srv) as ->.
  { unfold copy_file_raising, copy_file. destruct repo; [done |].
    rewrite Hperform. by destruct (invoke _ srv) as [[rv|e] s]. }
  destruct (copy_file invoke folder repo id path srv) as [[[[]|e] srv1] tr1];
    [|done].
  by rewrite IH.
Qed.

Lemma import_files_raising_returning (projection : string → Server → list Z)
    folder filelist ln_s srv :
  (∀ s, loadplugins s = Ok ()) →
  (∀ cpath s, query cpath s = Ok (projection cpath s)) →
  _import_files_raising invoke query loadplugins folder filelist ln_s srv
    = _import_files invoke projection folder filelist ln_s srv.
Proof.
  intros Hload Hquery. unfold _import_files_raising, _import_files.
  rewrite Hload. generalize ([] : dict (list Z)) as dest_map. revert srv.
  induction filelist as [|f filelist IH]; intros srv dest_map; [done |].
  cbn [import_loop_raising import_loop].
  destruct (invoke _ srv) as [[rv|e] srv1]; [|done].
  unfold _get_image_ids_raising, _get_image_ids. rewrite Hquery. cbn [bind].
  by rewrite IH.
Qed.

End RaisingLoops.

Section RaisingStages.

Context {Server : Type}.
Variable int : string → option Z.
Variable list_of_set : list string → list string.
Variable invoke : list string → Server → invoke_outcome * Server.
Variable query : string → Server → result (list Z).
Variable loadplugins : Server → result ().
Variable perform : effect → Server → result () * Server.

Lemma pack_raising_returning (repositories : Server → result (list Repository))
    (populate_xml :
       string → Z → string → string → Server → result (dict string) * Server)
    (repos : Server → list Repository)
    (xml : string → Z → string → string → Server → dict string)
    object filepath srv :
  (∀ s, loadplugins s = Ok ()) →
  (∀ eff s, perform eff s = (Ok (), s)) →
  (∀ s, repositories s = Ok (repos s)) →
  (∀ datatype id xml_fp repo s,
     populate_xml datatype id xml_fp repo s = (Ok (xml datatype id xml_fp repo s), s)) →
  __pack_raising invoke loadplugins perform repositories populate_xml
    object filepath srv
  = __pack invoke repos xml object filepath srv.
Proof.
  intros Hload Hperform Hrepos Hxml. unfold __pack_raising, __pack.
  destruct (src_datatype_and_id object) as [[datatype id]|]; [|done].
  cbv zeta. rewrite Hperform, Hrepos.
  destruct (_get_path_to_repo (repos srv)) as [|repo rest]; [done |].
  rewrite Hxml, copy_files_raising_returning by done.
  destruct (_copy_files invoke _ _ repo srv) as [[[[]|e] srv3] tr].
  - rewrite !Hperform. by rewrite <-!app_assoc.
  - by rewrite <-!app_assoc.
Qed.

Lemma unpack_raising_returning (from_xml : string → Server → result OME)
    (projection : string → Server → list Z) (document : string → OME)
    filepath output ln_s_import srv :
  (∀ s, loadplugins s = Ok ()) →
  (∀ eff s, perform eff s = (Ok (), s)) →
  (∀ cpath s, query cpath s = Ok (projection cpath s)) →
  (∀ xml_fp s, from_xml xml_fp s = Ok (document xml_fp)) →
  __unpack_raising int list_of_set invoke query loadplugins perform from_xml
    filepath output ln_s_import srv
  = __unpack int list_of_set invoke projection document
      filepath output ln_s_import srv.
Proof.
  intros Hload Hperform Hquery Hxml. unfold __unpack_raising, __unpack.
  cbv zeta. rewrite Hperform, Hxml.
  destruct (_create_image_map int list_of_set _)
    as [[[ome' src_img_map] filelist]|e]; [|done].
  rewrite (import_files_raising_returning _ _ _ projection) by done.
  destruct (_import_files invoke projection _ filelist ln_s_import srv)
    as [[[dest_img_map|e] srv1] tr]; [|done].
  destruct (_make_image_map src_img_map dest_img_map) as [img_map|e]; [|done].
  by rewrite Hperform.
Qed.

End RaisingStages.

(** X12.  [_copy_files] goes through the entries in dict order; each round
    makes the target directory and then invokes the download into it.  A run
    that returns has done so for every entry.  A run that raises after the
    plugins were loaded stopped in the round of one entry: every entry
    before it was copied, the call that raised, [os.makedirs] or the
    download, is the last effect, and nothing is done for the entries after
    it.  When [CLI()] or [loadplugins] raises nothing is done at all, and
    with an empty repository path the first entry raises [ValueError] (from
    [split]) before any effect. *)
Theorem copy_files_makes_each_directory_first {Server : Type}
    (invoke : list string → Server → invoke_outcome * Server)
    (loadplugins : Server → result ())
    (perform : effect → Server → result () * Server)
    (id_list : dict string) (folder repo : string) (srv : Server) :
  (∀ e, loadplugins srv = Raise e →
        _copy_files_raising invoke loadplugins perform id_list folder repo srv
          = (Raise e, srv, [])) ∧
  (loadplugins srv = Ok () → repo = "" → id_list ≠ [] →
   _copy_files_raising invoke loadplugins perform id_list folder repo srv
     = (Raise ValueError, srv, [])) ∧
  (loadplugins srv = Ok () → repo ≠ "" →
   ((_copy_files_raising invoke loadplugins perform id_list folder repo srv).1.1
      = Ok () →
    (_copy_files_raising invoke loadplugins perform id_list folder repo srv).2
      = id_list ≫= copy_steps folder repo) ∧
   (∀ e,
      (_copy_files_raising invoke loadplugins perform id_list folder repo srv).1.1
        = Raise e →
      ∃ before id path after srv0 srv2,
        id_list = before ++ (id, path) :: after ∧
        _copy_files_raising invoke loadplugins perform before folder repo srv
          = (Ok (), srv0, before ≫= copy_steps folder repo) ∧
        ((perform (MakeDirs (copy_target folder repo path)) srv0
            = (Raise e, srv2) ∧
          _copy_files_raising invoke loadplugins perform id_list folder repo srv
            = (Raise e, srv2,
               (before ≫= copy_steps folder repo) ++
               [MakeDirs (copy_target folder repo path)])) ∨
         (∃ srv1,
            perform (MakeDirs (copy_target folder repo path)) srv0
              = (Ok (), srv1) ∧
            invoke ["download"; id; copy_target folder repo path] srv1
              = (Raised e, srv2) ∧
            _copy_files_raising invoke loadplugins perform id_list folder repo srv
              = (Raise e, srv2,
                 (before ≫= copy_steps folder repo) ++
                 copy_steps folder repo (id, path)))))).
Proof.
  unfold _copy_files_raising. split; [|split].
  - by intros e ->.
  - intros -> -> Hne. by destruct id_list as [|[id path] id_list].
  - intros -> Hrepo. split.
    + destruct (copy_loop_raising invoke perform id_list folder repo srv)
        as [[[[]|e] srv'] tr] eqn:Hrun; [|done].
      intros _. by eapply copy_loop_raising_Ok.
    + intros e.
      destruct (copy_loop_raising invoke perform id_list folder repo srv)
        as [[[[]|e'] srv'] tr] eqn:Hrun; [done |].
      intros [= ->].
      destruct (copy_loop_raising_Raise _ _ _ _ _ _ _ _ _ Hrepo Hrun)
        as (before & id & path & after & srv0 & Hsplit & Hbefore & Hlast).
      exists before, id, path, after, srv0, srv'.
      split; [done |]. split; [done |].
      destruct Hlast as [[Hmk ->]|(srv1 & Hmk & Hinv & ->)]; [by left |].
      right. by exists srv1.
Qed.

Lemma copy_files_makes_each_directory_first_witness :
  (_copy_files_raising (example_invoke [] []) (λ _, Ok ())
     (example_perform (λ _, false))
     [("Image:1", "/root/2023/01/01/img.tif"); ("Image:2", "/root/2023/b.tif")]
     "stage" "/root" []).2
  = [MakeDirs "stage/2023/01/01";
     Invoke ["download"; "Image:1"; "stage/2023/01/01"];
     MakeDirs "stage/2023";
     Invoke ["download"; "Image:2"; "stage/2023"]] ∧
  ∃ before id path after,
    [("Image:1", "/root/2023/01/01/img.tif"); ("Image:2", "/root/2023/b.tif");
     ("Image:3", "/root/c.tif")]
      = before ++ (id, path) :: after ∧
    ((_copy_files_raising (example_invoke ["Image:2"] []) (λ _, Ok ())
        (example_perform (λ _, false))
        [("Image:1", "/root/2023/01/01/img.tif"); ("Image:2", "/root/2023/b.tif");
         ("Image:3", "/root/c.tif")]
        "stage" "/root" []).2
     = (before ≫= copy_steps "stage" "/root") ++
       [MakeDirs (copy_target "stage" "/root" path)] ∨
     (_copy_files_raising (example_invoke ["Image:2"] []) (λ _, Ok ())
        (example_perform (λ _, false))
        [("Image:1", "/root/2023/01/01/img.tif"); ("Image:2", "/root/2023/b.tif");
         ("Image:3", "/root/c.tif")]
        "stage" "/root" []).2
     = (before ≫= copy_steps "stage" "/root") ++
       copy_steps "stage" "/root" (id, path)).
Proof.
  split.
  - by rewrite (proj1 (proj2 (proj2 (copy_files_makes_each_directory_first
                  (example_invoke [] []) (λ _, Ok ())
                  (example_perform (λ _, false))
                  [("Image:1", "/root/2023/01/01/img.tif");
                   ("Image:2", "/root/2023/b.tif")]
                  "stage" "/root" [])) eq_refl ltac:(done)) eq_refl).
  - destruct (proj2 (proj2 (proj2 (copy_files_makes_each_directory_first
                (example_invoke ["Image:2"] []) (λ _, Ok ())
                (example_perform (λ _, false))
                [("Image:1", "/root/2023/01/01/img.tif");
                 ("Image:2", "/root/2023/b.tif"); ("Image:3", "/root/c.tif")]
                "stage" "/root" [])) eq_refl ltac:(done))
                (External "import") eq_refl)
      as (before & id & path & after & srv0 & srv2 & Hsplit & _ & Hlast).
    exists before, id, path, after. split; [exact Hsplit |].
    destruct Hlast as [[_ ->]|(srv1 & _ & _ & ->)]; [by left | by right].
Defined.

Lemma trace_end {A} (a t : list A) p x q y :
  (a ++ t ++ [p; x]) ++ [q; y] = (a ++ t ++ [p]) ++ [x; q; y].
Proof. by rewrite <-!app_assoc. Qed.

Lemma trace_last {A} (a : list A) p x : a ++ [p; x] = (a ++ [p]) ++ [x].
Proof. by rewrite <-app_assoc. Qed.



(** A run of [__pack] in which [os.makedirs] raises on the staging folder:
    nothing else is attempted. *)
Example pack_raises_before_the_staging_folder :
  __pack_raising (example_invoke [] []) (λ _, Ok ())
    (example_perform (λ eff, match eff with MakeDirs _ => true | _ => false end))
    (λ _, Ok [{| desc_path := "/OMERO/"; desc_name := "ManagedRepository";
                 is_mrepo := true |}])
    (λ _ _ _ _ s, (Ok [("Image:1", "/OMERO/ManagedRepository/a/img.tif")], s))
    (Dataset 7) "out/pack.zip" []
  = (Raise (External "os"), [],
     [Print "Populating xml..."; MakeDirs "out/pack.zip_folder"]).
Proof. reflexivity. Qed.



(** A run of [__unpack] in which [populate_omero] raises: the call was
    made, and the run raises what it raised. *)
Example unpack_raises_inside_populate_omero :
  (__unpack_raising py_int dedup (example_invoke [] [])
     (λ _ _, Ok [9002; 9001]) (λ _, Ok ())
     (example_perform
        (λ eff, match eff with PopulateOmero _ _ => true | _ => false end))
     (λ _ _, Ok example_document) "/data/pack.zip" None false []).1.1
  = Raise (External "os") ∧
  last (__unpack_raising py_int dedup (example_invoke [] [])
          (λ _ _, Ok [9002; 9001]) (λ _, Ok ())
          (example_perform
             (λ eff, match eff with PopulateOmero _ _ => true | _ => false end))
          (λ _ _, Ok example_document) "/data/pack.zip" None false []).2
  = Some (PopulateOmero
            {| images :=
                 [{| image_id := "Image:501";
                     annotation_ref := [{| ref_id := "Annotation:7" |}] |}];
               structured_annotations :=
                 [{| ann_id := "Annotation:7"; ann_namespace := "ns";
                     ann_value := "tag" |}] |}
            [("Image:500", 9001); ("Image:501", 9002)]).
Proof. split; vm_compute; reflexivity. Qed.

(** * Copying the files of a packet: [_copy_files] *)

Section CopyFiles.

Context {Server : Type}.
Variable invoke : list string → Server → invoke_outcome * Server.

Lemma copy_file_steps folder repo id path srv :
  repo ≠ "" →
  (copy_file invoke folder repo id path srv).2 = copy_steps folder repo (id, path).
Proof.
  intros Hrepo. unfold copy_file. destruct repo as [|c repo]; [done |].
  fold (copy_target folder (String c repo) path).
  by destruct (invoke _ srv) as [[rv|e0] srv'].
Qed.

Lemma copy_files_steps id_list folder repo srv :
  repo ≠ "" →
  ∃ n, (n ≤ length id_list)%nat ∧
       (_copy_files invoke id_list folder repo srv).2
         = take n id_list ≫= copy_steps folder repo ∧
       ((_copy_files invoke id_list folder repo srv).1.1 = Ok () →
        n = length id_list) ∧
       (∀ e, (_copy_files invoke id_list folder repo srv).1.1 = Raise e →
             (0 < n)%nat).
Proof.
  intros Hrepo. revert srv.
  induction id_list as [|[id path] id_list IH]; intros srv.
  - exists 0%nat. by simpl.
  - cbn [_copy_files].
    pose proof (copy_file_steps folder repo id path srv Hrepo) as Hsteps.
    destruct (copy_file invoke folder repo id path srv) as [[[[]|e0] srv'] tr];
      cbn [fst snd] in *; subst tr.
    + destruct (IH srv') as (n & Hn & Htrace & Hok & Hraise).
      destruct (_copy_files invoke id_list folder repo srv') as [[r s] t].
      cbn [fst snd] in *. exists (S n). split; [simpl; lia |].
      split; [by rewrite Htrace |]. split.
      * intros Hr. by rewrite (Hok Hr).
      * intros e _. lia.
    + exists 1%nat. split; [simpl; lia |]. split; [|split; [done |]].
      * cbn [take mbind list_bind]. by rewrite app_nil_r.
      * intros e _. lia.
Qed.

End CopyFiles.

Section CopyTarget.

Lemma last_item_split_prefix sep t :
  sep ≠ "" → ¬ occurs sep t → last_item (split sep (sep +:+ t)) = t.
Proof.
  intros Hsep Ht. rewrite last_item_split_unfold by done.
  assert (find sep (sep +:+ t) = Some ("", t)) as ->.
  { pose proof (proj2 (strip_prefix_Some sep (sep +:+ t) t) eq_refl) as Hp.
    destruct (sep +:+ t); cbn [find]; by rewrite Hp. }
  rewrite last_item_split_unfold by done.
  apply find_None in Ht. by rewrite Ht.
Qed.

Lemma last_item_split_absent sep s :
  sep ≠ "" → ¬ occurs sep s → last_item (split sep s) = s.
Proof.
  intros Hsep Hs. rewrite last_item_split_unfold by done.
  apply find_None in Hs. by rewrite Hs.
Qed.

End CopyTarget.

(** X13.  Where a file is copied to.  For a file whose path is the
    repository path followed by [t], the repository path not occurring in
    [t], the download goes into the staging folder joined with the parent
    directory of [t] without its first character (the [/] after the
    repository path, for a repository path written without final slash): the
    layout below the repository is recreated below the staging folder.  A
    path that does not hold the repository path is treated in the same way
    from its second character on. *)
Theorem copy_target_mirrors_the_repository_layout (folder repo : string) :
  repo ≠ "" →
  (∀ t, ¬ occurs repo t →
        copy_target folder repo (repo +:+ t) =
          str (truediv (parse folder) (str (parent (parse (tail t)))))) ∧
  (∀ path, ¬ occurs repo path →
           copy_target folder repo path =
             str (truediv (parse folder) (str (parent (parse (tail path)))))).
Proof.
  intros Hrepo. unfold copy_target. split.
  - intros t Ht. by rewrite last_item_split_prefix.
  - intros path Hpath. by rewrite last_item_split_absent.
Qed.

Lemma copy_target_mirrors_the_repository_layout_witness :
  copy_target "stage" "/root" ("/root" +:+ "/2023/01/01/img.tif") = "stage/2023/01/01".
Proof.
  rewrite (proj1 (copy_target_mirrors_the_repository_layout "stage" "/root"
                    ltac:(done)) "/2023/01/01/img.tif").
  - reflexivity.
  - apply find_None. reflexivity.
Defined.

(** * The query for imported images: [_get_image_ids] *)

Section ClientPath.

Lemma lstrip_slash_spec s :
  ∃ a, s = a +:+ lstrip_slash s ∧ all_slashes a = true ∧
       startswith (lstrip_slash s) "/" = false.
Proof.
  induction s as [|c s (a & Heq & Hall & Hstart)]; [by exists "" |].
  cbn [lstrip_slash]. destruct (decide (c = "/"%char)) as [->|Hne].
  - exists (String "/" a). split; [simpl; by rewrite <-Heq |]. by split.
  - exists "". split; [done |]. split; [done |].
    unfold startswith. simpl. by rewrite decide_False by done.
Qed.

Lemma rstrip_slash_spec s :
  ∃ b, s = rstrip_slash s +:+ b ∧ all_slashes b = true ∧
       endswith_slash (rstrip_slash s) = false.
Proof.
  induction s as [|c s (b & Heq & Hall & Hend)]; [by exists "" |].
  cbn [rstrip_slash]. destruct (rstrip_slash s) as [|x r] eqn:Hr.
  - simpl in Heq. subst b. destruct (decide (c = "/"%char)) as [->|Hne].
    + exists (String "/" s). split; [done |]. split; [|done].
      simpl. by rewrite Hall.
    + exists s. split; [done |]. split; [done |].
      simpl. by apply bool_decide_eq_false.
  - exists b. split; [by rewrite Heq at 1 |]. by split.
Qed.

Lemma rstrip_slash_head s :
  startswith s "/" = false → startswith (rstrip_slash s) "/" = false.
Proof.
  destruct s as [|c s]; [done |]. unfold startswith. cbn [rstrip_slash strip_prefix].
  destruct (decide ("/"%char = c)) as [<-|Hne]; [done |]. intros _.
  destruct (rstrip_slash s); [|by rewrite decide_False by done].
  destruct (decide (c = "/"%char)); [done |]. simpl. by rewrite decide_False by done.
Qed.

Lemma strip_slash_spec s :
  ∃ a b, s = a +:+ strip_slash s +:+ b ∧
         all_slashes a = true ∧ all_slashes b = true ∧
         startswith (strip_slash s) "/" = false ∧
         endswith_slash (strip_slash s) = false.
Proof.
  unfold strip_slash.
  destruct (lstrip_slash_spec s) as (a & Ha & Halla & Hstart).
  destruct (rstrip_slash_spec (lstrip_slash s)) as (b & Hb & Hallb & Hend).
  exists a, b. split; [by rewrite <-Hb |]. split; [done |]. split; [done |].
  split; [by apply rstrip_slash_head | done].
Qed.

End ClientPath.

(** X14.  [_get_image_ids] asks for the images recorded under the file
    path with every leading and trailing [/] taken off, and nothing else
    changed, and returns the identifiers found sorted in ascending order,
    none lost and none added. *)
Theorem image_ids_are_queried_by_stripped_path {Server : Type}
    (projection : string → Server → list Z) (file_path : string) (srv : Server) :
  (∃ a b, file_path = a +:+ strip_slash file_path +:+ b ∧
          all_slashes a = true ∧ all_slashes b = true ∧
          startswith (strip_slash file_path) "/" = false ∧
          endswith_slash (strip_slash file_path) = false) ∧
  StronglySorted Z.le (_get_image_ids projection file_path srv) ∧
  _get_image_ids projection file_path srv ≡ₚ projection (strip_slash file_path) srv.
Proof.
  split; [apply strip_slash_spec |]. split.
  - apply StronglySorted_merge_sort; apply _.
  - apply merge_sort_Permutation.
Qed.

(** * The default folder of [unpack], in general *)

Section DefaultFolder.

Lemma append_empty_r s : s +:+ "" = s.
Proof. induction s as [|c s IH]; simpl; [done | by rewrite IH]. Qed.

Lemma startswith_prefix s p : startswith s p = true → ∃ r, s = p +:+ r.
Proof.
  unfold startswith. destruct (strip_prefix p s) as [r|] eqn:Hp; [|done].
  intros _. exists r. by apply strip_prefix_Some.
Qed.

Lemma parse_root_no_slash s : ¬ occurs "/" s → parse_root s = "".
Proof.
  intros Hno. unfold parse_root.
  destruct (startswith s "///") eqn:H3.
  { apply startswith_prefix in H3 as [r ->]. destruct Hno. by exists "", ("//" +:+ r). }
  destruct (startswith s "//") eqn:H2.
  { apply startswith_prefix in H2 as [r ->]. destruct Hno. by exists "", ("/" +:+ r). }
  destruct (startswith s "/") eqn:H1; [|done].
  apply startswith_prefix in H1 as [r ->]. destruct Hno. by exists "", r.
Qed.

Lemma parse_root_slash s : startswith s "/" = true → parse_root s ≠ "".
Proof.
  intros Hs. unfold parse_root. rewrite Hs.
  by destruct (startswith s "///"), (startswith s "//").
Qed.

Lemma substring_prefix n p : ∃ r, p = String.substring 0 n p +:+ r.
Proof.
  revert n. induction p as [|c p IH]; intros n.
  - exists "". by destruct n.
  - destruct n as [|n]; [by exists (String c p) |].
    destruct (IH n) as [r Hr]. exists r. simpl. by rewrite <-Hr.
Qed.

Lemma rfind_lower c s : -1 ≤ rfind c s.
Proof.
  induction s as [|a s IH]; simpl; [lia |].
  destruct (0 <=? rfind c s) eqn:Hr; [apply Z.leb_le in Hr; lia |].
  destruct (decide (a = c)); lia.
Qed.

Lemma rfind_head c s : 0 ≤ rfind c (String c s).
Proof.
  simpl. pose proof (rfind_lower c s).
  destruct (0 <=? rfind c s) eqn:Hr; [apply Z.leb_le in Hr; lia |].
  by rewrite decide_True.
Qed.

(** What [os.path.splitext] returns first is the path or a prefix of it,
    and it keeps the leading [/] of an absolute path. *)
Lemma splitext_fst p :
  (∃ r, p = (splitext p).1 +:+ r) ∧
  (startswith p "/" = true → startswith (splitext p).1 "/" = true).
Proof.
  unfold splitext.
  destruct (rfind "/" p <? rfind "." p) eqn:Hlt;
    [|split; [exists ""; by rewrite append_empty_r | done]].
  destruct (all_dots _); [split; [exists ""; by rewrite append_empty_r | done] |].
  cbn [fst]. split; [apply substring_prefix |].
  intros [r ->]%startswith_prefix. apply Z.ltb_lt in Hlt.
  pose proof (rfind_head "/" r) as Hsep. simpl ("/" +:+ r) in *.
  destruct (Z.to_nat (rfind "." (String "/" r))) as [|n] eqn:Hn; [lia |].
  done.
Qed.

Lemma no_slash_prefix s r : ¬ occurs "/" (s +:+ r) → ¬ occurs "/" s.
Proof.
  intros Hno (a & b & ->). apply Hno. exists a, (b +:+ r).
  by rewrite !append_assoc.
Qed.

End DefaultFolder.

(** X15.  When the default folder is the one the archive name suggests.
    Without a usable [--output], [unpack] extracts into
    [Path(os.path.splitext(filepath)[0])], the archive path without its
    extension, whenever the archive path is absolute or has no directory
    part; only a relative path with a directory part gets its directory
    joined in twice. *)
Theorem default_folder_is_the_stem_path (filepath : string) (output : option string) :
  output = None ∨ output = Some "" →
  startswith filepath "/" = true ∨ ¬ occurs "/" filepath →
  unpack_folder filepath output = parse (splitext filepath).1.
Proof.
  intros Hout Hpath.
  assert (unpack_folder filepath output
          = truediv (parent (parse filepath)) (splitext filepath).1) as ->
    by (by destruct Hout as [-> | ->]).
  destruct (splitext_fst filepath) as [[r Hr] Habs].
  unfold truediv. destruct Hpath as [Hslash|Hbare].
  - pose proof (parse_root_slash _ (Habs Hslash)) as Hroot.
    change (parse_root (splitext filepath).1) with (root (parse (splitext filepath).1))
      in Hroot.
    by destruct (root (parse (splitext filepath).1)).
  - assert (¬ occurs "/" (splitext filepath).1) as Hfn.
    { apply (no_slash_prefix _ r). by rewrite <-Hr. }
    pose proof (parse_root_no_slash _ Hfn) as Hroot.
    change (parse_root (splitext filepath).1) with (root (parse (splitext filepath).1))
      in Hroot.
    rewrite Hroot. unfold parent, parse. cbn [root parts].
    rewrite (parse_root_no_slash _ Hbare), (parse_root_no_slash _ Hfn).
    rewrite (split_unfold "/" filepath) by done.
    apply find_None in Hbare. rewrite Hbare.
    f_equal. cbn [List.filter]. by destruct (keep_part filepath).
Qed.

Lemma default_folder_is_the_stem_path_witness :
  unpack_folder "/data/run.7/pack.ome.zip" None = parse "/data/run.7/pack.ome" ∧
  unpack_folder "pack.zip" (Some "") = parse "pack".
Proof.
  split.
  - rewrite (default_folder_is_the_stem_path "/data/run.7/pack.ome.zip" None);
      [reflexivity | by left | by left].
  - rewrite (default_folder_is_the_stem_path "pack.zip" (Some ""));
      [reflexivity | by right |].
    right. apply find_None. reflexivity.
Defined.

(** * What reconciliation reads after a complete import *)

Section DestinationLists.

Lemma ids_under_none j (d : dict (list Z)) :
  (∀ k v, (k, v) ∈ d → normalize k ≠ j) → ids_under j d = [].
Proof.
  induction d as [|[k v] d IH]; intros Hnone; [done |].
  unfold ids_under. cbn [mbind list_bind]. simpl.
  rewrite decide_False by (apply (Hnone k v), list_elem_of_here).
  apply IH. intros k' v' Hin. apply (Hnone k' v'). by apply list_elem_of_further.
Qed.

(** A join key reached by one raw key only reads that key's list. *)
Lemma ids_under_unique j k0 (d : dict (list Z)) :
  NoDup d.*1 →
  (∀ k v, (k, v) ∈ d → normalize k = j → k = k0) →
  (is_Some (get k0 d) → normalize k0 = j) →
  ids_under j d = getitem_default k0 d.
Proof.
  induction d as [|[k v] d IH]; intros Hnd Honly Hkey; [done |].
  apply NoDup_cons in Hnd as [Hk Hnd].
  unfold ids_under, getitem_default. cbn [mbind list_bind get]. simpl.
  destruct (decide (normalize k = j)) as [Hj|Hj].
  - assert (k = k0) as -> by (apply (Honly k v); [apply list_elem_of_here | done]).
    rewrite decide_True by done. simpl.
    fold (ids_under j d). rewrite ids_under_none; [by rewrite app_nil_r |].
    intros k' v' Hin Hj'.
    assert (k' = k0) as -> by (apply (Honly k' v'); [by apply list_elem_of_further | done]).
    apply Hk. apply list_elem_of_fmap. by exists (k0, v').
  - assert (k ≠ k0) as Hne.
    { intros ->. apply Hj, Hkey. simpl. by rewrite decide_True. }
    rewrite decide_False by done. apply IH; [done | |].
    + intros k' v' Hin. apply (Honly k' v'). by apply list_elem_of_further.
    + intros Hsome. apply Hkey. simpl. by rewrite decide_False.
Qed.

End DestinationLists.

(** X16.  After an extraction and a complete import, what reconciliation
    reads on the destination side under a file of the list is the list
    recorded for the import path of that file alone, and that list is
    sorted in ascending order. *)
Theorem complete_import_gives_one_sorted_list_per_file {Server : Type}
    (int : string → option Z) (list_of_set : list string → list string)
    (invoke : list string → Server → invoke_outcome * Server)
    (projection : string → Server → list Z)
    (ome ome' : OME) (src_img_map dest_img_map : dict (list Z))
    (filelist : list string) (folder : path) (ln_s : bool)
    (srv srv' : Server) (tr : list effect) :
  set_list_spec list_of_set → wf_path folder →
  _create_image_map int list_of_set ome = Ok (ome', src_img_map, filelist) →
  _import_files invoke projection folder filelist ln_s srv
    = (Ok dest_img_map, srv', tr) →
  ∀ f, f ∈ filelist →
       ids_under f dest_img_map
         = getitem_default (join (str folder) ["."; f]) dest_img_map ∧
       StronglySorted Z.le (ids_under f dest_img_map).
Proof.
  intros Hset Hwf Hextract Himport f Hf.
  assert (readable int ome) as Hread.
  { apply (proj1 (create_image_map_returns_iff int list_of_set ome)). by eexists. }
  destruct (create_image_map_ok int list_of_set ome Hread) as [m1 Hok1].
  rewrite Hextract in Hok1. injection Hok1 as _ _ Hfl.
  assert (∀ g, g ∈ filelist → ¬ occurs "/./" g) as Hfree.
  { intros g Hg. rewrite Hfl in Hg. apply (proj1 (proj2 (Hset _) g)) in Hg.
    unfold sentinel_files in Hg. apply list_elem_of_fmap in Hg as (a & -> & _).
    apply normalize_marker_free. }
  destruct (str_wf_path folder Hwf) as [Hne Hdot].
  apply import_loop_Ok in Himport as (_ & Hfiles & Helems & Hnd).
  assert (ids_under f dest_img_map
          = getitem_default (join (str folder) ["."; f]) dest_img_map) as Heq.
  { apply ids_under_unique.
    - apply Hnd. constructor.
    - intros k v Hin Hk. destruct (Helems k v Hin) as [Hnil|(_ & g & Hg & ->)];
        [by apply elem_of_nil in Hnil |].
      rewrite normalize_join_string in Hk by (try done; by apply Hfree).
      by subst g.
    - intros _. apply normalize_join_string; [done | done | by apply Hfree]. }
  split; [exact Heq |]. rewrite Heq.
  destruct (Hfiles f Hf) as [ids Hids].
  rewrite (get_getitem_default _ _ _ Hids).
  apply get_Some_elem in Hids.
  destruct (Helems _ _ Hids) as [Hnil|[Hsorted _]]; [by apply elem_of_nil in Hnil | done].
Qed.

Lemma complete_import_gives_one_sorted_list_per_file_witness :
  ids_under "a/img.tif" [("/out/./a/img.tif", [9001; 9002])] = [9001; 9002].
Proof.
  rewrite (proj1 (complete_import_gives_one_sorted_list_per_file py_int dedup
             (example_invoke [] []) (example_projection (λ _, [9002; 9001]))
             example_document _ _ [("/out/./a/img.tif", [9001; 9002])]
             ["a/img.tif"] (parse "/out") false [] _ _
             dedup_spec (parse_wf "/out") eq_refl eq_refl "a/img.tif"
             ltac:(apply list_elem_of_here))).
  reflexivity.
Defined.
